(** * ocean-node: DDO lookup helpers, RPC fail-over and storage back-ends

    A shallow embedding of

    - [src/components/core/utils/findDdoHandler.ts]
      ([hasCachedDDO], [sortFindDDOResults], [findDDOLocally]),
    - [src/utils/blockchain.ts]
      ([Blockchain], [tryFallbackRPCs], [verifyMessage]),
    - [src/components/storage/index.ts]
      ([Storage.getStorageClass], [UrlStorage])

    together with the properties the specification states about them.

    Conventions.  A JavaScript string is the Rocq [string] of its UTF-8
    bytes.  A time stamp is an integer number of milliseconds since the
    epoch ([Z]); [new Date] turns it into a date, which is an Invalid
    Date when the stamp is out of the range a date can hold.  Objects
    that the source mutates in place (arrays, the DDO cache, the
    [Blockchain] instance) live in an explicit store that is threaded
    through the functions. *)

From Stdlib Require Import ZArith Lia Ascii String.
From stdpp Require Import base option list gmap strings sorting pretty.

Local Open Scope string_scope.
Local Open Scope list_scope.
Local Open Scope Z_scope.

(** ** Values shared by the three files *)

(** The completion of a JavaScript call: a returned value or a thrown
    [Error] carrying its message. *)
Inductive completion (A : Type) : Type :=
  | Returned (a : A)
  | Thrown (message : string).
Arguments Returned {A} a.
Arguments Thrown {A} message.

(** [String.prototype.toLowerCase] on the ASCII letters. *)
Definition lower_ascii (c : ascii) : ascii :=
  let n := N_of_ascii c in
  if ((65 <=? n) && (n <=? 90))%N then ascii_of_N (n + 32) else c.

Fixpoint toLowerCase (s : string) : string :=
  match s with
  | EmptyString => EmptyString
  | String c s' => String (lower_ascii c) (toLowerCase s')
  end.

(** [String.prototype.startsWith]. *)
Definition startsWith (s p : string) : bool := String.prefix p s.

(** JavaScript truthiness of a possibly missing string property:
    [undefined] and the empty string are falsy. *)
Definition truthy (v : option string) : bool :=
  match v with
  | Some s => negb (String.eqb s "")
  | None => false
  end.

(** ** [Array.prototype.sort]

    ECMAScript fixes what [sort] returns only for a comparator that is
    consistent on the values of the array: the array is then ordered by
    it and values that compare equal keep their order.  For any other
    comparator the order is left to the engine. *)
Section SortContract.
Context {A : Type} (comparefn : A → A → Z).

(** [comparefn] is a consistent comparator for the values of [l]. *)
Definition consistent (l : list A) : Prop :=
  ∀ a b c, a ∈ l → b ∈ l → c ∈ l →
    comparefn a a = 0
    ∧ (comparefn a b = 0 → comparefn b a = 0)
    ∧ (comparefn a b = 0 → comparefn b c = 0 → comparefn a c = 0)
    ∧ (comparefn a b < 0 → comparefn b c < 0 → comparefn a c < 0)
    ∧ (comparefn a b > 0 → comparefn b c > 0 → comparefn a c > 0).

(** No value of [l] stands behind one it compares less than. *)
Definition sorted_by (l : list A) : Prop :=
  StronglySorted (λ a b, ¬ comparefn b a < 0) l.

(** The values of [l] that compare equal to one of them stand in [l']
    in the order they have in [l]. *)
Definition keeps_ties (l l' : list A) : Prop :=
  ∀ x, x ∈ l →
    filter (λ y, comparefn x y = 0) l' = filter (λ y, comparefn x y = 0) l.
End SortContract.

(** A function that does what the language asks of [sort]. *)
Definition ecma_sort {A : Type}
    (sort : (A → A → Z) → list A → list A) : Prop :=
  ∀ comparefn l,
    consistent comparefn l →
    sort comparefn l ≡ₚ l
    ∧ sorted_by comparefn (sort comparefn l)
    ∧ keeps_ties comparefn l (sort comparefn l).

(** Insertion from the right is such a sort: a value moves behind a later
    one only when the comparator says it is greater. *)
Section ArraySort.
Context {A : Type} (compareFn : A → A → Z).

Fixpoint sort_insert (x : A) (l : list A) : list A :=
  match l with
  | [] => [x]
  | y :: l' => if 0 <? compareFn x y then y :: sort_insert x l' else x :: l
  end.

Definition Array_sort (l : list A) : list A := foldr sort_insert [] l.
End ArraySort.

(** V8's [sort] on an array of fewer than 64 values, where it never
    merges: it takes the run the array starts with, reversed when it is
    strictly descending, and inserts each later value at the place a
    binary search finds for it. *)
Section V8.
Context {A : Type} (comparefn : A → A → Z).

(** The loop of [CountAndMakeRun]: the length of the run. *)
Fixpoint run_length (isDescending : bool) (previousElement : A)
    (rest : list A) (runLength : nat) : nat :=
  match rest with
  | [] => runLength
  | currentElement :: rest' =>
      let order := comparefn currentElement previousElement in
      if (if isDescending then 0 <=? order else order <? 0)
      then runLength
      else run_length isDescending currentElement rest' (S runLength)
  end.

Definition CountAndMakeRun (workArray : list A) : list A * nat :=
  match workArray with
  | [] => (workArray, 0%nat)
  | [_] => (workArray, 1%nat)
  | elementHigh :: elementLow :: rest =>
      let order := comparefn elementLow elementHigh in
      let isDescending := order <? 0 in
      let runLength := run_length isDescending elementLow rest 2 in
      (if isDescending
       then reverse (take runLength workArray) ++ drop runLength workArray
       else workArray,
       runLength)
  end.

(** The [while (left < right)] loop of [BinaryInsertionSort]; the
    interval halves at every turn, so [fuel = right - left] suffices. *)
Fixpoint insertion_point (fuel : nat) (pivot : A) (workArray : list A)
    (left right : nat) : nat :=
  match fuel with
  | O => left
  | S fuel' =>
      if (left <? right)%nat then
        let mid := (left + (right - left) / 2)%nat in
        match workArray !! mid with
        | Some element =>
            if comparefn pivot element <? 0
            then insertion_point fuel' pivot workArray left mid
            else insertion_point fuel' pivot workArray (S mid) right
        | None => left
        end
      else left
  end.

(** One turn of its [for] loop: [workArray[start]] is moved to its place
    among the values before it. *)
Definition insert_pivot (workArray : list A) (start : nat) : list A :=
  match workArray !! start with
  | Some pivot =>
      let left := insertion_point start pivot workArray 0 start in
      take left workArray ++ [pivot]
      ++ drop left (take start workArray) ++ drop (S start) workArray
  | None => workArray
  end.

Fixpoint BinaryInsertionSort (workArray : list A) (start turns : nat)
  : list A :=
  match turns with
  | O => workArray
  | S turns' =>
      BinaryInsertionSort (insert_pivot workArray start) (S start) turns'
  end.

Definition v8_sort_short (l : list A) : list A :=
  if (length l <? 2)%nat then l
  else
    let '(workArray, runLength) := CountAndMakeRun l in
    BinaryInsertionSort workArray runLength (length l - runLength).
End V8.

(** ** components/core/utils/findDdoHandler.ts *)
Module FindDdoHandler.

(** [FindDDOResponse] (its declaration in [@types] is not among the
    sources; the fields are those [findDDOLocally] fills in). *)
Record FindDDOResponse := mkFindDDOResponse {
  id : string;
  lastUpdateTx : string;
  lastUpdateTime : Z;
  provider : string
}.

#[export] Instance FindDDOResponse_eq_dec : EqDecision FindDDOResponse.
Proof. solve_decision. Defined.

(** [new Date(t)]: the time value of the date object, or [None] for an
    Invalid Date.  A date holds at most 8.64e15 ms on either side of the
    epoch; a stamp beyond that gives an Invalid Date, as does any value
    [new Date] cannot read. *)
Definition Date (t : Z) : option Z :=
  if Z.abs t <=? 8640000000000000 then Some t else None.

(** [x > y] and [x < y] on two dates: each is turned into its time
    value, [NaN] for an Invalid Date, and a comparison with [NaN] is
    false. *)
Definition Date_gt (x y : option Z) : bool :=
  match x, y with
  | Some tx, Some ty => ty <? tx
  | _, _ => false
  end.

Definition Date_lt (x y : option Z) : bool :=
  match x, y with
  | Some tx, Some ty => tx <? ty
  | _, _ => false
  end.

(** The comparator handed to [sort] by [sortFindDDOResults]. *)
Definition compareFn (a b : FindDDOResponse) : Z :=
  let dateA := Date (lastUpdateTime a) in
  let dateB := Date (lastUpdateTime b) in
  if Date_gt dateB dateA then 1
  else if Date_lt dateB dateA then -1
  else 0.

(** Arrays are objects: a variable holds a reference into the store. *)
Definition ref := positive.
Abbreviation store := (gmap ref (list FindDDOResponse)).

Section Sorting.
(** The [Array.prototype.sort] of the engine the node runs on. *)
Variable Array_prototype_sort :
  (FindDDOResponse → FindDDOResponse → Z) →
  list FindDDOResponse → list FindDDOResponse.

(** [sortFindDDOResults(resultList)].  [sort] reorders the array it is
    called on and returns that same array.  [None] stands for a
    dangling reference, which no JavaScript program can produce. *)
Definition sortFindDDOResults (resultList : ref) (σ : store)
  : option (ref * store) :=
  l ← σ !! resultList;
  if 0 <? Z.of_nat (length l)
  then Some (resultList,
             <[resultList := Array_prototype_sort compareFn l]> σ)
  else Some (resultList, σ).
End Sorting.

(** The DDO cache of the P2P node: one [updated] stamp for the whole
    cache and a [Map] from DDO id to the best known location. *)
Record DDOCache := mkDDOCache {
  updated : Z;
  dht : gmap string FindDDOResponse
}.

(** What [findDDOLocally] reads of a stored DDO. *)
Record DDO := mkDDO {
  ddo_id : string;
  event_tx : string;
  metadata_updated : Z
}.

Record FindDDOCommand := mkFindDDOCommand { task_id : string }.

Inductive LogEntry :=
  | CacheExpired (did : string) (age_ms : Z).

(** The node together with what the functions observe around it: the
    wall clock and the P2P console logger.  [insertedAt] is a history
    variable: it records, for every key of [dht], the clock reading at
    the last [dht.set] on it; no code reads it. *)
Record OceanP2P := mkOceanP2P {
  peerId : string;
  ddoCache : DDOCache;
  database_ddo : gmap string DDO;
  clock : Z;
  console : list LogEntry;
  insertedAt : gmap string Z
}.

(** A small state monad over the node. *)
Definition M (A : Type) : Type := OceanP2P → A * OceanP2P.
Definition ret {A} (a : A) : M A := λ n, (a, n).
Definition bind {A B} (m : M A) (k : A → M B) : M B :=
  λ n, let '(a, n') := m n in k a n'.

Declare Scope node_scope.
Delimit Scope node_scope with node.
Notation "'let*' x := m 'in' k" := (bind m (λ x, k))
  (at level 10, x name, m at level 100, k at level 200) : node_scope.
Notation "m ;;; k" := (bind m (λ _, k))
  (at level 100, k at level 200, right associativity) : node_scope.

Definition getPeerId : M string := λ n, (peerId n, n).
Definition dht_has (k : string) : M bool :=
  λ n, (bool_decide (is_Some (dht (ddoCache n) !! k)), n).
Definition dht_get (k : string) : M (option FindDDOResponse) :=
  λ n, (dht (ddoCache n) !! k, n).
Definition dht_set (k : string) (v : FindDDOResponse) : M unit :=
  λ n, (tt, {| peerId := peerId n;
               ddoCache := {| updated := updated (ddoCache n);
                              dht := <[k := v]> (dht (ddoCache n)) |};
               database_ddo := database_ddo n;
               clock := clock n;
               console := console n;
               insertedAt := <[k := clock n]> (insertedAt n) |}).
Definition cache_updated : M Z := λ n, (updated (ddoCache n), n).
Definition Date_getTime : M Z := λ n, (clock n, n).
Definition ddo_retrieve (k : string) : M (option DDO) :=
  λ n, (database_ddo n !! k, n).
Definition P2P_CONSOLE_LOGGER_log (e : LogEntry) : M unit :=
  λ n, (tt, {| peerId := peerId n;
               ddoCache := ddoCache n;
               database_ddo := database_ddo n;
               clock := clock n;
               console := console n ++ [e];
               insertedAt := insertedAt n |}).

Section Handlers.
(** [CACHE_TTL] is exported by [P2P/index.ts], which is not among the
    sources; the functions are parametric in it. *)
Variable CACHE_TTL : Z.

Local Open Scope node_scope.

Definition hasCachedDDO (task : FindDDOCommand) : M bool :=
  let* cached := dht_has (task_id task) in
  if cached then
    let* now := Date_getTime in
    let* cacheTime := cache_updated in
    if now - cacheTime <=? CACHE_TTL then ret true
    else
      P2P_CONSOLE_LOGGER_log (CacheExpired (task_id task) (now - cacheTime));;;
      ret false
  else ret false.

Definition findDDOLocally (did : string) : M (option FindDDOResponse) :=
  let* found := ddo_retrieve did in
  match found with
  | Some ddo =>
      let* me := getPeerId in
      let ddoInfo := {| id := ddo_id ddo;
                        lastUpdateTx := event_tx ddo;
                        lastUpdateTime := metadata_updated ddo;
                        provider := me |} in
      let* cached := dht_has (ddo_id ddo) in
      (if negb cached then dht_set (ddo_id ddo) ddoInfo
       else
         let* localCachedData := dht_get (ddo_id ddo) in
         match localCachedData with
         | Some c =>
             if Date_gt (Date (lastUpdateTime ddoInfo))
                        (Date (lastUpdateTime c))
             then dht_set (ddo_id ddo) ddoInfo
             else ret tt
         | None => ret tt
         end);;;
      ret (Some ddoInfo)
  | None => ret None
  end.
End Handlers.
End FindDdoHandler.

(** ** utils/blockchain.ts *)
Module Blockchain.

Record Network := mkNetwork {
  network_name : string;
  network_chainId : Z
}.

(** A provider object: the endpoint it talks to, the network it was
    given at construction (if any), and how many times [networkChanged]
    is subscribed to its ['network'] event. *)
Record JsonRpcProvider := mkJsonRpcProvider {
  url : string;
  staticNetwork : option Network;
  listeners : nat
}.

(** A wallet, told by the two arguments it was built from: the key string
    handed to [ethers.Wallet] (of which the library keeps its own form,
    with [0x] in front and in lower case) and the endpoint of the
    provider. *)
Record Wallet := mkWallet {
  wallet_key : string;
  wallet_rpc : string
}.

Record Blockchain := mkBlockchain {
  signer : Wallet;
  provider : JsonRpcProvider;
  chainId : Z;
  knownRPCs : list string;
  network : Network;
  networkAvailable : bool
}.

(** What the instance does to the objects around it, in order. *)
Inductive Event :=
  | ProviderOff
  | ProviderNew (rpc : string)
  | WalletNew (rpc : string)
  | ProviderOn (rpc : string)
  | Sleep (ms : Z)
  | IsNetworkReady (rpc : string) (answer : bool).

#[export] Instance Event_eq_dec : EqDecision Event.
Proof. solve_decision. Defined.

(** The instance, the operations performed so far and the log lines. *)
Record World := mkWorld {
  this : Blockchain;
  trace : list Event;
  logged : list string
}.

(** How the network behaves while one endpoint is probed:
    - [notification]: [Some b] when a ['network'] event arrives during
      the grace period and the provider calls [networkChanged], [b]
      being [newNetwork instanceof Network];
    - [ready]: the value of [provider.ready];
    - [detected]: the completion of [provider._detectNetwork()], its
      value being [network instanceof Network]. *)
Record Probe := mkProbe {
  notification : option bool;
  ready : bool;
  detected : completion bool
}.

Definition emit (e : Event) (w : World) : World :=
  {| this := this w; trace := trace w ++ [e]; logged := logged w |}.

Definition log (line : string) (w : World) : World :=
  {| this := this w; trace := trace w; logged := logged w ++ [line] |}.

Definition set_provider (p : JsonRpcProvider) (w : World) : World :=
  {| this := {| signer := signer (this w);
                provider := p;
                chainId := chainId (this w);
                knownRPCs := knownRPCs (this w);
                network := network (this w);
                networkAvailable := networkAvailable (this w) |};
     trace := trace w; logged := logged w |}.

Definition set_signer (s : Wallet) (w : World) : World :=
  {| this := {| signer := s;
                provider := provider (this w);
                chainId := chainId (this w);
                knownRPCs := knownRPCs (this w);
                network := network (this w);
                networkAvailable := networkAvailable (this w) |};
     trace := trace w; logged := logged w |}.

(** [provider.on('network', networkChanged)] and
    [provider.off('network', networkChanged)]. *)
Definition provider_on (p : JsonRpcProvider) : JsonRpcProvider :=
  {| url := url p; staticNetwork := staticNetwork p;
     listeners := S (listeners p) |}.

Definition provider_off (p : JsonRpcProvider) : JsonRpcProvider :=
  {| url := url p; staticNetwork := staticNetwork p;
     listeners := pred (listeners p) |}.

(** [isHexString(s, true)] of ethers: [0x], then hexadecimal digits, an
    even number of them. *)
Definition isHexDigit (c : ascii) : bool :=
  let n := N_of_ascii c in
  ((48 <=? n) && (n <=? 57) || (65 <=? n) && (n <=? 70)
   || (97 <=? n) && (n <=? 102))%N.

Fixpoint allHexDigits (s : string) : bool :=
  match s with
  | EmptyString => true
  | String c s' => isHexDigit c && allHexDigits s'
  end.

Definition isHexString (s : string) : bool :=
  match s with
  | String "0"%char (String "x"%char digits) =>
      allHexDigits digits && Nat.even (String.length digits)
  | _ => false
  end.

Section WithProcess.
(** [process.env.PRIVATE_KEY], and the check [ethers.Wallet] makes on the
    key it is given. *)
Variable PRIVATE_KEY : option string.
Variable isPrivateKey : string → bool.

(** [new ethers.Wallet(process.env.PRIVATE_KEY, provider)].  The library
    puts [0x] in front of a key that does not start with it; a key it
    does not accept is refused with [invalid BytesLike value] when it is
    not a hexadecimal string and with [invalid private key] otherwise,
    as is a key that is [undefined].  (The message is the short one; the
    library appends the argument, an error code and its version.) *)
Definition new_Wallet (p : JsonRpcProvider) : completion Wallet :=
  match PRIVATE_KEY with
  | Some k =>
      if isPrivateKey k
      then Returned {| wallet_key := k; wallet_rpc := url p |}
      else
        let key := if startsWith k "0x" then k else "0x" +:+ k in
        if isHexString key then Thrown "invalid private key"
        else Thrown "invalid BytesLike value"
  | None => Thrown "invalid private key"
  end.

Definition registerForNetworkEvents (w : World) : World :=
  emit (ProviderOn (url (provider (this w))))
       (set_provider (provider_on (provider (this w))) w).

(** [new Blockchain(rpc, chainName, chainId, fallbackRPCs)]. *)
Definition constructor (rpc chainName : string) (chain : Z)
    (fallbackRPCs : option (list string)) : completion World :=
  let known :=
    match fallbackRPCs with
    | Some fs => if 0 <? Z.of_nat (length fs) then [rpc] ++ fs else [rpc]
    | None => [rpc]
    end in
  let net := {| network_name := chainName; network_chainId := chain |} in
  let p := {| url := rpc; staticNetwork := Some net; listeners := 0 |} in
  let p' := provider_on p in
  match new_Wallet p' with
  | Returned s =>
      Returned {| this := {| signer := s; provider := p'; chainId := chain;
                             knownRPCs := known; network := net;
                             networkAvailable := false |};
                  trace := [ProviderNew rpc; ProviderOn rpc; WalletNew rpc];
                  logged := [] |}
  | Thrown m => Thrown m
  end.

Definition getSigner (w : World) : Wallet := signer (this w).
Definition getProvider (w : World) : JsonRpcProvider := provider (this w).
Definition getSupportedChain (w : World) : Z := chainId (this w).
Definition getKnownRPCs (w : World) : list string := knownRPCs (this w).

(** [detectNetwork()]: the probe, with its [try]/[catch]. *)
Definition detectNetwork (pr : Probe) (w : World) : bool * World :=
  let w := log "will wait for networks to be discovered..." w in
  match detected pr with
  | Returned b => (b, log "networks discovered:" w)
  | Thrown _ => (false, log "got error:" w)
  end.

Definition isNetworkReady (pr : Probe) (w : World) : bool * World :=
  if networkAvailable (this w) || ready pr then (true, w)
  else detectNetwork pr w.

(** [networkChanged(newNetwork)] as the provider calls it.  The method
    was handed to [provider.on] without being bound to the instance, and
    the provider calls its listeners with itself as [this]: the
    assignment to [this.networkAvailable] makes a property of the
    provider, which nothing reads, and the [networkAvailable] of the
    instance keeps its value. *)
Definition networkChanged (newNetwork_instanceof_Network : bool) (w : World)
  : World := w.

(** [await sleep(ms)]: the handler may run while the call is suspended. *)
Definition sleep (ms : Z) (pr : Probe) (w : World) : World :=
  let w := emit (Sleep ms) w in
  match notification pr with
  | Some b => networkChanged b w
  | None => w
  end.

(** The [for] loop of [tryFallbackRPCs], entered with [i = k - 1]; the
    answers of the network for index [i] are [env i]. *)
Fixpoint tryFallbackRPCs_from (env : nat → Probe) (k : nat) (w : World)
  : completion bool * World :=
  match k with
  | O => (Returned false, log "fallback failed" w)
  | S i =>
      let rpc := default "undefined" (knownRPCs (this w) !! i) in
      let w := emit ProviderOff
                    (set_provider (provider_off (provider (this w))) w) in
      let w := log ("Retrying new provider connection with RPC: " +:+ rpc) w in
      let p := {| url := rpc; staticNetwork := None; listeners := 0 |} in
      let w := emit (ProviderNew rpc) (set_provider p w) in
      match new_Wallet p with
      | Thrown m => (Thrown m, w)
      | Returned s =>
          let w := emit (WalletNew rpc) (set_signer s w) in
          let w := log "will register..." w in
          let w := registerForNetworkEvents w in
          let w := sleep 2000 (env i) w in
          let w := log "after sleep 2 secs" w in
          let '(ok, w) := isNetworkReady (env i) w in
          let w := emit (IsNetworkReady rpc ok) w in
          if ok then (Returned true, log "fallback ok" w)
          else tryFallbackRPCs_from env i w
      end
  end.

Definition tryFallbackRPCs (env : nat → Probe) (w : World)
  : completion bool * World :=
  tryFallbackRPCs_from env (length (knownRPCs (this w))) w.
End WithProcess.

Inductive Message :=
  | Text (s : string)
  | Bytes (b : list Byte.byte).

Section VerifyMessage.
(** [isAddress] and [ethers.verifyMessage]; the latter returns the
    address recovered from the signature or throws. *)
Variable isAddress : string → bool.
Variable ethers_verifyMessage : Message → string → completion string.

(** The body of the [try] block (the error log line is left out). *)
Definition verifyMessage_body (message : Message) (address signature : string)
  : completion bool :=
  if negb (isAddress address) then Returned false
  else
    match ethers_verifyMessage message signature with
    | Thrown m => Thrown m
    | Returned signerAddr =>
        if negb (String.eqb (toLowerCase signerAddr) (toLowerCase address))
        then Returned false
        else Returned true
    end.

(** [try { ... } catch (err) { return false }]. *)
Definition verifyMessage (message : Message) (address signature : string)
  : completion bool :=
  match verifyMessage_body message address signature with
  | Returned b => Returned b
  | Thrown _ => Returned false
  end.
End VerifyMessage.

(** What [checkSupportedChainId] reads of the configuration:
    [supportedNetworks], an object keyed by the chain id in decimal, and
    of each network its [rpc]. *)
Record SupportedNetwork := mkSupportedNetwork {
  rpc : string
}.

Record OceanNodeConfig := mkOceanNodeConfig {
  supportedNetworks : gmap string SupportedNetwork
}.

Section WithConfiguration.
(** [Number.prototype.toString] on a chain id that is an integer. *)
Variable Number_toString : Z → string.
(** The value [getConfiguration()] resolves to. *)
Variable config : OceanNodeConfig.

Definition checkSupportedChainId (chain : Z) : bool * string :=
  match supportedNetworks config !! Number_toString chain with
  | None => (false, "")
  | Some net => (true, rpc net)
  end.

(** [getJsonRpcProvider(chainId)]; [None] is [null]. *)
Definition getJsonRpcProvider (chain : Z) : option JsonRpcProvider :=
  let checkResult := checkSupportedChainId chain in
  if negb checkResult.1 then None
  else Some {| url := checkResult.2; staticNetwork := None; listeners := 0 |}.
End WithConfiguration.
End Blockchain.

(** ** components/storage/index.ts *)
Module Storage.

(** A file object as the storage classes read it; a property that is
    absent is [None]. *)
Record FileObject := mkFileObject {
  type : option string;
  url : option string;
  method : option string;
  hash : option string;
  transactionId : option string
}.

Record ProcessEnv := mkProcessEnv {
  IPFS_GATEWAY : option string;
  ARWEAVE_GATEWAY : option string
}.

(** An instance of one of the three subclasses of [Storage], holding the
    file it was given. *)
Inductive Storage :=
  | UrlStorage (file : FileObject)
  | IpfsStorage (file : FileObject)
  | ArweaveStorage (file : FileObject).

Definition getFile (s : Storage) : FileObject :=
  match s with
  | UrlStorage f | IpfsStorage f | ArweaveStorage f => f
  end.

(** The value of a method that returns a string or [null]. *)
Inductive nullable (A : Type) : Type :=
  | Null
  | NotNull (a : A).
Arguments Null {A}.
Arguments NotNull {A} a.

Definition slash : ascii := "/"%char.

(** [s] starts with a line terminator, which [.] does not match: LF, CR,
    U+2028 or U+2029 (in UTF-8 the bytes E2 80 A8 and E2 80 A9). *)
Definition lineTerminatorAt (s : string) : bool :=
  match s with
  | String c rest =>
      (N_of_ascii c =? 10)%N || (N_of_ascii c =? 13)%N
      || (N_of_ascii c =? 226)%N
         && match rest with
            | String d (String e _) =>
                (N_of_ascii d =? 128)%N
                && ((N_of_ascii e =? 168)%N || (N_of_ascii e =? 169)%N)
            | _ => false
            end
  | EmptyString => false
  end.

(** [[^/]+$]: one or more characters other than [/], up to the end. *)
Fixpoint noSlash (s : string) : bool :=
  match s with
  | EmptyString => true
  | String c s' => negb (Ascii.eqb c slash) && noSlash s'
  end.

Definition lastSegment (s : string) : bool :=
  negb (String.eqb s "") && noSlash s.

(** [/^(.+)\/([^/]+)$/.test(s)].  [started] tells whether [(.+)] has
    already taken a character; at every [/] the match may end [(.+)]
    there, or go on if [.] accepts the character that starts here. *)
Fixpoint regex_from (started : bool) (s : string) : bool :=
  match s with
  | EmptyString => false
  | String c s' =>
      (started && Ascii.eqb c slash && lastSegment s')
      || (negb (lineTerminatorAt s) && regex_from true s')
  end.

Definition regex_test (s : string) : bool := regex_from false s.

Definition includes (l : list string) (s : string) : bool :=
  existsb (String.eqb s) l.

(** [UrlStorage.isFilePath()]; called only once [url] is known to be
    truthy. *)
Definition isFilePath (file : FileObject) : bool :=
  let u := default "" (url file) in
  if startsWith u "http://" || startsWith u "https://" then false
  else regex_test u.

(** [UrlStorage.validate()]. *)
Definition UrlStorage_validate (file : FileObject) : bool * string :=
  if negb (truthy (url file)) || negb (truthy (method file))
  then (false, "URL or method are missing")
  else if negb (includes ["get"; "post"]
                  (toLowerCase (default "" (method file))))
  then (false, "Invalid method for URL")
  else if isFilePath file
  then (false, "URL looks like a file path")
  else (true, "").

(** [new UrlStorage(file)]: store the file, validate, throw on failure. *)
Definition new_UrlStorage (file : FileObject) : completion Storage :=
  let this := UrlStorage file in
  let '(isValid, message) := UrlStorage_validate (getFile this) in
  if negb isValid
  then Thrown ("Error validationg the URL file: " +:+ message)
  else Returned this.

(** [UrlStorage.getDownloadUrl()]. *)
Definition UrlStorage_getDownloadUrl (this : Storage)
  : nullable (option string) :=
  if fst (UrlStorage_validate (getFile this))
  then NotNull (url (getFile this))
  else Null.

Section WithEnv.
Variable env : ProcessEnv.

(** [ArweaveStorage.validate()]. *)
Definition ArweaveStorage_validate (file : FileObject) : bool * string :=
  if negb (truthy (ARWEAVE_GATEWAY env))
  then (false, "Arweave gateway is not provided!")
  else if negb (truthy (transactionId file))
  then (false, "Missing transaction ID")
  else (true, "").

(** [IpfsStorage.validate()]. *)
Definition IpfsStorage_validate (file : FileObject) : bool * string :=
  if negb (truthy (IPFS_GATEWAY env))
  then (false, "IPFS gateway is not provided!")
  else if negb (truthy (hash file))
  then (false, "Missing CID")
  else (true, "").

(** The abstract method [validate], dispatched on the class. *)
Definition validate (this : Storage) : bool * string :=
  match this with
  | UrlStorage f => UrlStorage_validate f
  | IpfsStorage f => IpfsStorage_validate f
  | ArweaveStorage f => ArweaveStorage_validate f
  end.

Definition new_ArweaveStorage (file : FileObject) : completion Storage :=
  let this := ArweaveStorage file in
  let '(isValid, message) := ArweaveStorage_validate (getFile this) in
  if negb isValid
  then Thrown ("Error validationg the Arweave file: " +:+ message)
  else Returned this.

Definition new_IpfsStorage (file : FileObject) : completion Storage :=
  let this := IpfsStorage file in
  let '(isValid, message) := IpfsStorage_validate (getFile this) in
  if negb isValid
  then Thrown ("Error validationg the IPFS file: " +:+ message)
  else Returned this.

(** [Storage.getStorageClass(file)]: the [switch] on [file.type]. *)
Definition getStorageClass (file : FileObject) : completion Storage :=
  if bool_decide (type file = Some "url") then new_UrlStorage file
  else if bool_decide (type file = Some "ipfs") then new_IpfsStorage file
  else if bool_decide (type file = Some "arweave") then new_ArweaveStorage file
  else Thrown ("Invalid storage type: " +:+ default "undefined" (type file)).
End WithEnv.

(** The type tag of the class a storage object belongs to. *)
Definition tagOf (s : Storage) : string :=
  match s with
  | UrlStorage _ => "url"
  | IpfsStorage _ => "ipfs"
  | ArweaveStorage _ => "arweave"
  end.

(** *** File information *)

Record Headers := mkHeaders {
  content_length : option string;
  content_type : option string
}.

Record FileInfoRequest := mkFileInfoRequest {
  request_type : option string;
  did : option string;
  serviceId : option string;
  fileIndex : option Z
}.

Record FileInfoResponse := mkFileInfoResponse {
  valid : bool;
  contentLength : option string;
  contentType : option string;
  name : string;
  info_type : string
}.

(** [s.split('/').pop()]: what follows the last slash of [s]. *)
Fixpoint split_pop (piece s : string) : string :=
  match s with
  | EmptyString => piece
  | String c s' =>
      if Ascii.eqb c slash then split_pop "" s'
      else split_pop (piece +:+ String c "") s'
  end.

(** [filesArray[i]] for a number [i]; [None] is [undefined]. *)
Definition at_index {A} (l : list A) (i : Z) : option A :=
  if i <? 0 then None else l !! Z.to_nat i.

Section WithNetwork.
Variable env : ProcessEnv.
(** The outcome of the requests [fetchFileMetadata] makes for a url:
    [axios.head], the [axios.get] that replaces it when it fails, and the
    [axios.get] whose body is read, given by the lengths of its chunks,
    which fails when the request or the stream does. *)
Variable axios_head : option string → completion Headers.
Variable axios_get : option string → completion Headers.
Variable axios_get_stream : option string → completion (list N).
(** [urlJoin], which throws on an argument that is not a string, and
    [new URL(url).pathname], which throws on an invalid url. *)
Variable urlJoin : option string → option string → completion string.
Variable URL_pathname : option string → completion string.
(** [getFileEndpoint(did, serviceId, node)]: the files of the service,
    whatever the decrypted document holds under [files], or a failure of
    the look-up or the decryption. *)
Variable getFileEndpoint :
  option string → option string → completion (option (list FileObject)).

(** [fetchFileMetadata(url)] (the error log lines are left out). *)
Definition fetchFileMetadata (u : option string)
  : option string * option string :=
  let '(contentLength, contentType) :=
    match axios_head u with
    | Returned response => (content_length response, content_type response)
    | Thrown _ =>
        match axios_get u with
        | Returned response =>
            (content_length response, content_type response)
        | Thrown _ => (Some "", Some "")
        end
    end in
  let contentLength :=
    if negb (truthy contentLength) then
      match axios_get_stream u with
      | Returned chunks =>
          let totalSize := foldl N.add 0%N chunks in
          Some (pretty totalSize)
      | Thrown _ => Some "Unknown"
      end
    else contentLength in
  (contentLength, contentType).

(** The three [fetchSpecificFileMetadata(fileObject)]; reading a property
    of an [undefined] file object throws. *)
Definition UrlStorage_fetchSpecificFileMetadata
    (fileObject : option FileObject) : completion FileInfoResponse :=
  match fileObject with
  | None => Thrown "TypeError: Cannot destructure property 'url'"
  | Some f =>
      let u := url f in
      let '(contentLength, contentType) := fetchFileMetadata u in
      match URL_pathname u with
      | Thrown m => Thrown m
      | Returned pathname =>
          Returned {| valid := true;
                      contentLength := contentLength;
                      contentType := contentType;
                      name := split_pop "" pathname;
                      info_type := "url" |}
      end
  end.

Definition ArweaveStorage_fetchSpecificFileMetadata
    (fileObject : option FileObject) : completion FileInfoResponse :=
  match fileObject with
  | None => Thrown "TypeError: Cannot read properties of undefined"
  | Some f =>
      match urlJoin (ARWEAVE_GATEWAY env) (transactionId f) with
      | Thrown m => Thrown m
      | Returned u =>
          let '(contentLength, contentType) := fetchFileMetadata (Some u) in
          match URL_pathname (Some u) with
          | Thrown m => Thrown m
          | Returned pathname =>
              Returned {| valid := true;
                          contentLength := contentLength;
                          contentType := contentType;
                          name := split_pop "" pathname;
                          info_type := "arweave" |}
          end
      end
  end.

Definition IpfsStorage_fetchSpecificFileMetadata
    (fileObject : option FileObject) : completion FileInfoResponse :=
  match fileObject with
  | None => Thrown "TypeError: Cannot read properties of undefined"
  | Some f =>
      match urlJoin (Some "/ipfs") (hash f) with
      | Thrown m => Thrown m
      | Returned path =>
          match urlJoin (IPFS_GATEWAY env) (Some path) with
          | Thrown m => Thrown m
          | Returned u =>
              let '(contentLength, contentType) :=
                fetchFileMetadata (Some u) in
              Returned {| valid := true;
                          contentLength := contentLength;
                          contentType := contentType;
                          name := "";
                          info_type := "ipfs" |}
          end
      end
  end.

(** The abstract method, dispatched on the class of [this]. *)
Definition fetchSpecificFileMetadata (this : Storage)
    (fileObject : option FileObject) : completion FileInfoResponse :=
  match this with
  | UrlStorage _ => UrlStorage_fetchSpecificFileMetadata fileObject
  | IpfsStorage _ => IpfsStorage_fetchSpecificFileMetadata fileObject
  | ArweaveStorage _ => ArweaveStorage_fetchSpecificFileMetadata fileObject
  end.

(** The [for ... of] loop of [getFileInfo] inside its [try]: the
    response when the loop ends or a fetch throws. *)
Fixpoint getFileInfo_loop (this : Storage) (filesArray : list FileObject)
    (response : list FileInfoResponse) : list FileInfoResponse :=
  match filesArray with
  | [] => response
  | fileObject :: rest =>
      match fetchSpecificFileMetadata this (Some fileObject) with
      | Returned fileInfo => getFileInfo_loop this rest (response ++ [fileInfo])
      | Thrown _ => response
      end
  end.

(** [Storage.getFileInfo(fileInfoRequest, p2pNode)]; a number is truthy
    when it is not 0. *)
Definition getFileInfo (this : Storage) (fileInfoRequest : FileInfoRequest)
  : completion (list FileInfoResponse) :=
  if negb (truthy (request_type fileInfoRequest))
     && negb (truthy (did fileInfoRequest))
  then Thrown "Either type or did must be provided"
  else if negb (truthy (request_type fileInfoRequest))
          && negb (truthy (serviceId fileInfoRequest))
  then Thrown "serviceId is required when type is not provided"
  else
    let response := [] in
    let files :=
      if truthy (request_type fileInfoRequest)
      then Returned (Some [getFile this])
      else getFileEndpoint (did fileInfoRequest) (serviceId fileInfoRequest) in
    match files with
    | Thrown _ => Returned response
    | Returned None | Returned (Some []) => Returned response
    | Returned (Some filesArray) =>
        match fileIndex fileInfoRequest with
        | Some i =>
            if negb (i =? 0) then
              match fetchSpecificFileMetadata this (at_index filesArray i) with
              | Returned fileInfo => Returned (response ++ [fileInfo])
              | Thrown _ => Returned response
              end
            else Returned (getFileInfo_loop this filesArray response)
        | None => Returned (getFileInfo_loop this filesArray response)
        end
    end.
End WithNetwork.
End Storage.

(** * Vocabulary of the properties

    Nothing below this line is part of the program: these are the words
    the properties are stated in, and sample data to run the program
    on. *)

Module FindDdoHandlerSpec.
Import FindDdoHandler.

(** The [lastUpdateTime] of [r] is a stamp [new Date] makes a date of,
    not an Invalid Date. *)
Definition valid_date (r : FindDDOResponse) : Prop :=
  is_Some (Date (lastUpdateTime r)).

(** [a] may stand before [b] in a list ordered newest first. *)
Definition not_older (a b : FindDDOResponse) : Prop :=
  lastUpdateTime b ≤ lastUpdateTime a.

Definition newest_first (l : list FindDDOResponse) : Prop :=
  StronglySorted not_older l.

(** The records of [l] stamped [t], in the order they have in [l]. *)
Definition stamped (t : Z) (l : list FindDDOResponse) : list FindDDOResponse :=
  filter (λ r, lastUpdateTime r = t) l.

(** The array a call returned, read from the store it left. *)
Definition returned_array (res : option (ref * store))
  : option (list FindDDOResponse) :=
  '(r, σ) ← res; σ !! r.

(** Two records for one DDO, the second one more recent, and a store
    whose only array lists them in that order. *)
Definition older : FindDDOResponse :=
  {| id := "did:op:1"; lastUpdateTx := "0x01";
     lastUpdateTime := 1700000000000; provider := "peerA" |}.
Definition newer : FindDDOResponse :=
  {| id := "did:op:1"; lastUpdateTx := "0x02";
     lastUpdateTime := 1700000010000; provider := "peerB" |}.
Definition twin : FindDDOResponse :=
  {| id := "did:op:1"; lastUpdateTx := "0x01";
     lastUpdateTime := 1700000000000; provider := "peerB" |}.
Definition store_pair : store := {[ 1%positive := [older; newer] ]}.
Definition store_tie : store := {[ 1%positive := [older; twin] ]}.

(** A record of peer [p] stamped [t]. *)
Definition at_time (p : string) (t : Z) : FindDDOResponse :=
  {| id := "did:op:1"; lastUpdateTx := "0x00";
     lastUpdateTime := t; provider := p |}.


(** Eight candidates, the fifth without a date, the sixth and the eighth
    with the same stamp. *)
Definition sixth : FindDDOResponse := at_time "peerF" 5.
Definition eighth : FindDDOResponse := at_time "peerH" 5.
Definition candidates : list FindDDOResponse :=
  [at_time "peerA" 9; at_time "peerB" 8; at_time "peerC" 7;
   at_time "peerD" 1; at_time "peerE" 8640000000000001; sixth;
   at_time "peerG" 0; eighth].

(** The age of the cache entry for [k]: the clock minus the time of the
    last [dht.set] on [k]. *)
Definition entry_age (k : string) (n : OceanP2P) : option Z :=
  t ← insertedAt n !! k; Some (clock n - t).

(** [ms] milliseconds pass. *)
Definition elapse (ms : Z) (n : OceanP2P) : OceanP2P :=
  {| peerId := peerId n; ddoCache := ddoCache n;
     database_ddo := database_ddo n; clock := clock n + ms;
     console := console n; insertedAt := insertedAt n |}.

(** A node started at time 0 with an empty cache, whose database holds
    one DDO, looked at 100 seconds later. *)
Definition ddo1 : DDO :=
  {| ddo_id := "did:op:1"; event_tx := "0x01";
     metadata_updated := 1700000000000 |}.
Definition node0 : OceanP2P :=
  {| peerId := "16Uiu2HAm"; ddoCache := {| updated := 0; dht := ∅ |};
     database_ddo := {[ "did:op:1" := ddo1 ]}; clock := 100000;
     console := []; insertedAt := ∅ |}.




(** The record [findDDOLocally] builds from a stored DDO, and whether it
    displaces what the cache holds under its identifier. *)
Definition built (n : OceanP2P) (ddo : DDO) : FindDDOResponse :=
  {| id := ddo_id ddo; lastUpdateTx := event_tx ddo;
     lastUpdateTime := metadata_updated ddo; provider := peerId n |}.

Definition displaces (n : OceanP2P) (info : FindDDOResponse) : bool :=
  match dht (ddoCache n) !! id info with
  | Some c => Date_gt (Date (lastUpdateTime info)) (Date (lastUpdateTime c))
  | None => true
  end.
End FindDdoHandlerSpec.

Module BlockchainSpec.
Import Blockchain.

(** The operations of one candidate, in order: drop the subscription of
    the current provider, build a provider and a wallet for [rpc],
    subscribe, wait two seconds, ask [isNetworkReady()]. *)
Definition attempt_events (rpc : string) (answer : bool) : list Event :=
  [ProviderOff; ProviderNew rpc; WalletNew rpc; ProviderOn rpc;
   Sleep 2000; IsNetworkReady rpc answer].

(** Candidates tried one after the other, none of them confirmed. *)
Definition misses (candidates : list string) : list Event :=
  candidates ≫= (λ rpc, attempt_events rpc false).

(** [process.env.PRIVATE_KEY] is a key [ethers.Wallet] accepts. *)
Definition usable (PRIVATE_KEY : option string) (isPrivateKey : string → bool)
  : bool :=
  match PRIVATE_KEY with
  | Some k => isPrivateKey k
  | None => false
  end.

(** The candidates with an index in [j+1 .. k-1], highest index first. *)
Definition above (j k : nat) (rpcs : list string) : list string :=
  reverse (drop (S j) (take k rpcs)).

(** A pool of three endpoints and a process whose key is usable. *)
Definition sample_key : string :=
  "0xac0974bec39a17e36ba4a6b4d238ff944bacb478cbed5efcae784d7bf4f2ff80".

Definition pool_key : option string := Some sample_key.

Definition any_key (k : string) : bool := true.

Definition pool_world : World :=
  {| this := {| signer := {| wallet_key := sample_key;
                             wallet_rpc := "https://primary" |};
                provider :=
                  {| url := "https://primary";
                     staticNetwork := Some (mkNetwork "sepolia" 11155111);
                     listeners := 1 |};
                chainId := 11155111;
                knownRPCs := ["https://primary"; "https://f1"; "https://f2"];
                network := mkNetwork "sepolia" 11155111;
                networkAvailable := false |};
     trace := [ProviderNew "https://primary"; ProviderOn "https://primary";
               WalletNew "https://primary"];
     logged := [] |}.

(** An endpoint that never answers, and one that does. *)
Definition unreachable : Probe :=
  {| notification := None; ready := false;
     detected := Thrown "could not detect network" |}.
Definition reachable : Probe :=
  {| notification := None; ready := false; detected := Returned true |}.
(** One that announces its network during the wait and then fails the
    probe. *)
Definition announced : Probe :=
  {| notification := Some true; ready := false;
     detected := Thrown "could not detect network" |}.
Definition only (j : nat) (i : nat) : Probe :=
  if Nat.eqb i j then reachable else unreachable.

(** A configuration that supports the chain 1. *)
Definition mainnet_only : OceanNodeConfig :=
  {| supportedNetworks := {[ "1" := {| rpc := "https://mainnet" |} ]} |}.

(** A stand-in for the two [ethers] functions: addresses are the strings
    of 42 characters, and every signature recovers to one fixed signer. *)
Definition toy_isAddress (a : string) : bool := Nat.eqb (String.length a) 42.
Definition toy_recover (m : Message) (sig : string) : completion string :=
  if String.eqb sig "" then Thrown "invalid signature"
  else Returned "0xAbCdEf0123456789aBcDeF0123456789AbCdEf01".
End BlockchainSpec.

Module StorageSpec.
Import Storage.

(** [s] holds no line terminator. *)
Fixpoint noLineTerminator (s : string) : bool :=
  match s with
  | EmptyString => true
  | String c s' => negb (lineTerminatorAt s) && noLineTerminator s'
  end.

(** The url [a<U+2028>b/c], whose first segment holds a line separator. *)
Definition url_with_separator : string :=
  String "a" (String (ascii_of_N 226) (String (ascii_of_N 128)
    (String (ascii_of_N 168) "b/c"))).

Definition gateways : ProcessEnv :=
  {| IPFS_GATEWAY := Some "https://ipfs.io";
     ARWEAVE_GATEWAY := Some "https://arweave.net" |}.
Definition file_without_url : FileObject :=
  {| type := Some "url"; url := None; method := Some "get";
     hash := None; transactionId := None |}.
Definition file_http : FileObject :=
  {| type := Some "url"; url := Some "https://example.com/data.csv";
     method := Some "GET"; hash := None; transactionId := None |}.
Definition file_path : FileObject :=
  {| type := Some "url"; url := Some "../etc/passwd";
     method := Some "get"; hash := None; transactionId := None |}.

(** A network on which one url answers a [HEAD] request and nothing
    else does, and a service that lists two files. *)
Definition sample_head (u : option string) : completion Headers :=
  if bool_decide (u = Some "https://example.com/data.csv")
  then Returned {| content_length := Some "1024";
                   content_type := Some "text/csv" |}
  else Thrown "Network Error".

Definition sample_get (u : option string) : completion Headers :=
  Thrown "Network Error".

Definition sample_stream (u : option string) : completion (list N) :=
  Thrown "Network Error".

Definition sample_urlJoin (a b : option string) : completion string :=
  match a, b with
  | Some x, Some y => Returned (x +:+ "/" +:+ y)
  | _, _ => Thrown "Url must be a string"
  end.

Definition sample_pathname (u : option string) : completion string :=
  if bool_decide (u = Some "https://example.com/data.csv")
  then Returned "/data.csv"
  else Thrown "Invalid URL".

Definition sample_endpoint (did serviceId : option string)
  : completion (option (list FileObject)) :=
  Returned (Some [file_http; file_path]).


Definition request_by_did : FileInfoRequest :=
  {| request_type := None; did := Some "did:op:1";
     serviceId := Some "0"; fileIndex := None |}.

Definition info_http : FileInfoResponse :=
  {| valid := true; contentLength := Some "1024";
     contentType := Some "text/csv"; name := "data.csv";
     info_type := "url" |}.
End StorageSpec.

(** * Properties *)

(** ** The sort *)
Lemma filter_all {A} (P : A → Prop) `{!∀ x, Decision (P x)} (l : list A) :
  (∀ x, x ∈ l → P x) → filter P l = l.
Proof.
  induction l as [|x l IH]; intros Hall; [done|].
  rewrite filter_cons_True by (apply Hall; left).
  f_equal. apply IH. intros y Hy. apply Hall. by right.
Qed.

Lemma filter_ext_elem {A} (P Q : A → Prop)
    `{!∀ x, Decision (P x)} `{!∀ x, Decision (Q x)} (l : list A) :
  (∀ x, x ∈ l → P x ↔ Q x) → filter P l = filter Q l.
Proof.
  induction l as [|x l IH]; intros Hall; [done|].
  rewrite !filter_cons.
  assert (P x ↔ Q x) as Hx by (apply Hall; left).
  rewrite IH by (intros y Hy; apply Hall; by right).
  repeat case_decide; tauto.
Qed.

Section ArraySortFacts.
Context {A : Type} (compareFn : A → A → Z).

Lemma sort_insert_Permutation x l : sort_insert compareFn x l ≡ₚ x :: l.
Proof.
  induction l as [|y l IH]; simpl; [done|].
  destruct (0 <? compareFn x y); [|done].
  rewrite IH. apply Permutation_swap.
Qed.

Lemma Array_sort_Permutation l : Array_sort compareFn l ≡ₚ l.
Proof.
  induction l as [|x l IH]; simpl; [done|].
  rewrite sort_insert_Permutation. by rewrite IH.
Qed.

Section Consistent.
Variable S : list A.
Hypothesis HS : consistent compareFn S.

Lemma consistent_refl a : a ∈ S → compareFn a a = 0.
Proof. intros Ha. by destruct (HS a a a Ha Ha Ha) as (? & _). Qed.

Lemma consistent_sym a b :
  a ∈ S → b ∈ S → compareFn a b = 0 → compareFn b a = 0.
Proof. intros Ha Hb. by destruct (HS a b a Ha Hb Ha) as (_ & ? & _). Qed.

Lemma consistent_ties x0 x y :
  x0 ∈ S → x ∈ S → y ∈ S →
  compareFn x0 x = 0 → compareFn x0 y = 0 → compareFn x y = 0.
Proof.
  intros H0 Hx Hy Hxx Hxy.
  destruct (HS x x0 y Hx H0 Hy) as (_ & _ & Ht & _).
  apply Ht; [by apply consistent_sym|done].
Qed.

Lemma consistent_lt_trans a b c :
  a ∈ S → b ∈ S → c ∈ S →
  compareFn a b < 0 → compareFn b c < 0 → compareFn a c < 0.
Proof. intros Ha Hb Hc. by destruct (HS a b c Ha Hb Hc) as (_ & _ & _ & ? & _). Qed.

Lemma consistent_gt_trans a b c :
  a ∈ S → b ∈ S → c ∈ S →
  compareFn a b > 0 → compareFn b c > 0 → compareFn a c > 0.
Proof. intros Ha Hb Hc. by destruct (HS a b c Ha Hb Hc) as (_ & _ & _ & _ & ?). Qed.

Lemma consistent_lt_gt a b :
  a ∈ S → b ∈ S → compareFn a b < 0 → compareFn b a > 0.
Proof.
  intros Ha Hb Hab.
  pose proof (consistent_refl a Ha) as Haa.
  destruct (Z.lt_trichotomy (compareFn b a) 0) as [Hba|[Hba|Hba]].
  - pose proof (consistent_lt_trans a b a Ha Hb Ha Hab Hba). lia.
  - pose proof (consistent_sym b a Hb Ha Hba). lia.
  - lia.
Qed.

Lemma consistent_gt_lt a b :
  a ∈ S → b ∈ S → compareFn a b > 0 → compareFn b a < 0.
Proof.
  intros Ha Hb Hab.
  pose proof (consistent_refl a Ha) as Haa.
  destruct (Z.lt_trichotomy (compareFn b a) 0) as [Hba|[Hba|Hba]].
  - done.
  - pose proof (consistent_sym b a Hb Ha Hba). lia.
  - assert (compareFn b a > 0) as Hba' by lia.
    pose proof (consistent_gt_trans a b a Ha Hb Ha Hab Hba'). lia.
Qed.

Lemma consistent_swap x y :
  x ∈ S → y ∈ S → ¬ 0 < compareFn x y → ¬ compareFn y x < 0.
Proof.
  intros Hx Hy Hxy Hyx.
  pose proof (consistent_lt_gt y x Hy Hx Hyx). lia.
Qed.

(** A value that need not move before [y] and that [x] need not pass
    need not move before [x] either. *)
Lemma consistent_behind x y b :
  x ∈ S → y ∈ S → b ∈ S →
  ¬ 0 < compareFn x y → ¬ compareFn b y < 0 → ¬ compareFn b x < 0.
Proof.
  intros Hx Hy Hb Hxy Hby Hbx.
  destruct (Z.lt_trichotomy (compareFn x y) 0) as [Hlt|[Heq|Hgt]]; [| |lia].
  - pose proof (consistent_lt_trans b x y Hb Hx Hy Hbx Hlt). lia.
  - pose proof (consistent_sym x y Hx Hy Heq) as Hyx.
    destruct (Z.lt_trichotomy (compareFn b y) 0) as [H|[H|H]]; [lia| |].
    + destruct (HS b y x Hb Hy Hx) as (_ & _ & Ht & _).
      specialize (Ht H Hyx). lia.
    + assert (compareFn b y > 0) as H' by lia.
      pose proof (consistent_gt_lt b y Hb Hy H') as Hyb.
      pose proof (consistent_lt_trans y b x Hy Hb Hx Hyb Hbx). lia.
Qed.

Lemma sort_insert_sorted x l :
  x ∈ S → l ⊆ S →
  sorted_by compareFn l → sorted_by compareFn (sort_insert compareFn x l).
Proof.
  unfold sorted_by. intros Hx Hl Hs. revert Hl.
  induction Hs as [|y l Hs IH Hy]; intros Hl; simpl.
  - repeat constructor.
  - assert (y ∈ S) as HyS by (apply Hl; left).
    assert (l ⊆ S) as HlS by (intros z Hz; apply Hl; by right).
    destruct (Z.ltb_spec 0 (compareFn x y)) as [Hc|Hc].
    + constructor; [by apply IH|].
      rewrite sort_insert_Permutation.
      constructor; [lia|done].
    + constructor; [by constructor|].
      constructor; [apply consistent_swap; (done || lia)|].
      rewrite Forall_forall in Hy. apply Forall_forall. intros b Hb.
      apply (consistent_behind x y b); auto. lia.
Qed.

Lemma sort_insert_ties x0 x l :
  x0 ∈ S → x ∈ S → l ⊆ S →
  filter (λ y, compareFn x0 y = 0) (sort_insert compareFn x l)
  = filter (λ y, compareFn x0 y = 0) (x :: l).
Proof.
  intros H0 Hx. induction l as [|y l IH]; intros Hl; simpl; [done|].
  assert (y ∈ S) as HyS by (apply Hl; left).
  assert (l ⊆ S) as HlS by (intros z Hz; apply Hl; by right).
  destruct (Z.ltb_spec 0 (compareFn x y)) as [Hc|Hc]; [|done].
  rewrite (filter_cons _ y (sort_insert _ _ _)), IH by done.
  rewrite !filter_cons.
  pose proof (consistent_ties x0 x y H0 Hx HyS).
  repeat case_decide; (done || lia).
Qed.
End Consistent.

Lemma Array_sort_subseteq l : Array_sort compareFn l ⊆ l.
Proof. intros x. by rewrite Array_sort_Permutation. Qed.

Lemma Array_sort_sorted S l :
  consistent compareFn S → l ⊆ S → sorted_by compareFn (Array_sort compareFn l).
Proof.
  intros HS. induction l as [|x l IH]; intros Hl; simpl.
  - constructor.
  - apply (sort_insert_sorted S HS).
    + apply Hl. left.
    + intros y Hy%Array_sort_subseteq. apply Hl. by right.
    + apply IH. intros y Hy. apply Hl. by right.
Qed.

Lemma Array_sort_ties S x0 l :
  consistent compareFn S → x0 ∈ S → l ⊆ S →
  filter (λ y, compareFn x0 y = 0) (Array_sort compareFn l)
  = filter (λ y, compareFn x0 y = 0) l.
Proof.
  intros HS H0. induction l as [|x l IH]; intros Hl; simpl; [done|].
  rewrite (sort_insert_ties S HS x0 x).
  - rewrite !filter_cons, IH; [done|].
    intros y Hy. apply Hl. by right.
  - done.
  - apply Hl. left.
  - intros y Hy%Array_sort_subseteq. apply Hl. by right.
Qed.

(** A comparator under which all the values of [l] are equal leaves a
    conforming sort nothing to move. *)
Lemma ecma_sort_all_tied sort l :
  ecma_sort sort →
  (∀ a b, a ∈ l → b ∈ l → compareFn a b = 0) →
  sort compareFn l = l.
Proof.
  intros Hsort Htied.
  destruct (Hsort compareFn l) as (Hp & _ & Hk).
  { intros a b c Ha Hb Hc.
    rewrite (Htied a a), (Htied a b), (Htied b a), (Htied b c),
      (Htied a c) by done.
    split_and!; (done || lia). }
  destruct l as [|x l]; [by apply Permutation_nil_r in Hp|].
  specialize (Hk x (list_elem_of_here _ _)).
  rewrite !filter_all in Hk; [done| |].
  - intros y Hy. apply Htied; [left|done].
  - intros y Hy. apply Htied; [left|by rewrite <- Hp].
Qed.
End ArraySortFacts.

Lemma Array_sort_conforms {A : Type} : ecma_sort (@Array_sort A).
Proof.
  intros comparefn l Hl. split_and!.
  - apply Array_sort_Permutation.
  - by apply (Array_sort_sorted comparefn l).
  - intros x Hx. by apply (Array_sort_ties comparefn l).
Qed.

Module FindDdoHandlerFacts.
Import FindDdoHandler FindDdoHandlerSpec.

(** *** The comparator *)

Lemma Date_valid r :
  valid_date r → Date (lastUpdateTime r) = Some (lastUpdateTime r).
Proof.
  unfold valid_date, Date. destruct (_ <=? _); [done|]. by intros [? ?].
Qed.

Lemma Date_invalid r : ¬ valid_date r → Date (lastUpdateTime r) = None.
Proof. unfold valid_date. intros H. by apply eq_None_not_Some. Qed.

Lemma Date_gt_irrefl d : Date_gt d d = false.
Proof. destruct d; simpl; [apply Z.ltb_irrefl|done]. Qed.


Lemma compareFn_dated a b :
  valid_date a → valid_date b →
  (0 < compareFn a b ↔ lastUpdateTime a < lastUpdateTime b)
  ∧ (compareFn a b < 0 ↔ lastUpdateTime b < lastUpdateTime a)
  ∧ (compareFn a b = 0 ↔ lastUpdateTime a = lastUpdateTime b).
Proof.
  intros Ha%Date_valid Hb%Date_valid. unfold compareFn.
  rewrite Ha, Hb. simpl.
  destruct (Z.ltb_spec (lastUpdateTime a) (lastUpdateTime b)); [lia|].
  destruct (Z.ltb_spec (lastUpdateTime b) (lastUpdateTime a)); lia.
Qed.

Lemma compareFn_undated a b :
  ¬ valid_date a ∨ ¬ valid_date b → compareFn a b = 0.
Proof.
  intros [H|H]; apply Date_invalid in H; unfold compareFn; rewrite H.
  - by destruct (Date (lastUpdateTime b)).
  - by destruct (Date (lastUpdateTime a)).
Qed.

Lemma compareFn_same_time a b :
  lastUpdateTime a = lastUpdateTime b → compareFn a b = 0.
Proof.
  intros Heq. unfold compareFn. rewrite Heq.
  destruct (Date _); simpl; [|done]. by rewrite Z.ltb_irrefl.
Qed.

(** On records that all have a date the comparator is consistent: it
    orders them by [lastUpdateTime], latest first. *)
Lemma consistent_dated l : Forall valid_date l → consistent compareFn l.
Proof.
  rewrite Forall_forall. intros Hv a b c Ha Hb Hc.
  pose proof (compareFn_dated a a (Hv a Ha) (Hv a Ha)).
  pose proof (compareFn_dated a b (Hv a Ha) (Hv b Hb)).
  pose proof (compareFn_dated b a (Hv b Hb) (Hv a Ha)).
  pose proof (compareFn_dated b c (Hv b Hb) (Hv c Hc)).
  pose proof (compareFn_dated a c (Hv a Ha) (Hv c Hc)).
  lia.
Qed.

Lemma sorted_by_newest_first l :
  Forall valid_date l → sorted_by compareFn l → newest_first l.
Proof.
  unfold sorted_by, newest_first. intros Hv Hs.
  induction Hs as [|x l Hs IH Hx]; [constructor|].
  apply Forall_cons in Hv as [Hvx Hvl].
  constructor; [by apply IH|].
  rewrite Forall_forall in Hx, Hvl. apply Forall_forall. intros b Hb.
  pose proof (compareFn_dated b x (Hvl b Hb) Hvx).
  specialize (Hx b Hb). unfold not_older. lia.
Qed.

Lemma stamped_absent t l :
  t ∉ lastUpdateTime <$> l → stamped t l = [].
Proof.
  unfold stamped. induction l as [|x l IH]; [done|].
  rewrite fmap_cons, not_elem_of_cons, filter_cons. intros [Hx Hl].
  case_decide; [congruence|by apply IH].
Qed.

Lemma keeps_ties_stamped l l' :
  Forall valid_date l → l' ≡ₚ l → keeps_ties compareFn l l' →
  ∀ t, stamped t l' = stamped t l.
Proof.
  intros Hv Hp Hk t.
  destruct (decide (t ∈ lastUpdateTime <$> l)) as [Hin|Hnin].
  - apply list_elem_of_fmap in Hin as (x & -> & Hx).
    specialize (Hk x Hx). unfold stamped.
    rewrite Forall_forall in Hv.
    rewrite (filter_ext_elem (λ r, lastUpdateTime r = lastUpdateTime x)
               (λ y, compareFn x y = 0) l').
    + rewrite Hk. symmetry. apply filter_ext_elem. intros y Hy.
      pose proof (compareFn_dated x y (Hv x Hx) (Hv y Hy)). lia.
    + intros y Hy. rewrite Hp in Hy.
      pose proof (compareFn_dated x y (Hv x Hx) (Hv y Hy)). lia.
  - rewrite !stamped_absent; [done|done|by rewrite Hp].
Qed.

(** What a conforming sort makes of records that all have a date. *)
Lemma conforming_dated sort l :
  ecma_sort sort → Forall valid_date l →
  sort compareFn l ≡ₚ l
  ∧ newest_first (sort compareFn l)
  ∧ ∀ t, stamped t (sort compareFn l) = stamped t l.
Proof.
  intros Hsort Hv.
  destruct (Hsort compareFn l (consistent_dated l Hv)) as (Hp & Hs & Hk).
  split_and!; [done| |by apply keeps_ties_stamped].
  apply sorted_by_newest_first; [by rewrite Hp|done].
Qed.

(** A list ordered newest first in which equally stamped records keep
    the order they have in [l] is determined by [l]. *)
Lemma stable_sort_unique l1 l2 :
  newest_first l1 → newest_first l2 →
  (∀ t, stamped t l1 = stamped t l2) →
  l1 = l2.
Proof.
  unfold newest_first. intros H1. revert l2.
  induction H1 as [|x l1 Hl1 IH Hx]; intros l2 H2 Hst.
  - destruct l2 as [|y l2]; [done|].
    specialize (Hst (lastUpdateTime y)). unfold stamped in Hst.
    rewrite filter_nil, filter_cons_True in Hst; done.
  - destruct H2 as [|y l2 Hl2 Hy].
    { specialize (Hst (lastUpdateTime x)). unfold stamped in Hst.
      rewrite filter_nil, filter_cons_True in Hst; done. }
    assert (∀ l r, r ∈ stamped (lastUpdateTime r) l ↔ r ∈ l) as Hin.
    { intros l r. unfold stamped. rewrite list_elem_of_filter. tauto. }
    assert (lastUpdateTime y ≤ lastUpdateTime x) as Hyx.
    { assert (y ∈ x :: l1) as Hy1.
      { apply Hin. rewrite Hst. apply Hin. left. }
      apply elem_of_cons in Hy1 as [->|Hy1]; [lia|].
      rewrite Forall_forall in Hx. by apply Hx. }
    assert (lastUpdateTime x ≤ lastUpdateTime y) as Hxy.
    { assert (x ∈ y :: l2) as Hx2.
      { apply Hin. rewrite <- Hst. apply Hin. left. }
      apply elem_of_cons in Hx2 as [->|Hx2]; [lia|].
      rewrite Forall_forall in Hy. by apply Hy. }
    assert (x = y) as ->.
    { pose proof (Hst (lastUpdateTime x)) as Hh. unfold stamped in Hh.
      rewrite !filter_cons in Hh.
      repeat case_decide; (congruence || lia). }
    f_equal. apply IH; [done|].
    intros t. specialize (Hst t). unfold stamped in *.
    rewrite !filter_cons in Hst.
    case_decide; congruence.
Qed.


Lemma ecma_sort_twice sort l :
  ecma_sort sort → Forall valid_date l →
  sort compareFn (sort compareFn l) = sort compareFn l.
Proof.
  intros Hsort Hv.
  destruct (conforming_dated sort l Hsort Hv) as (Hp & Hs & Hst).
  assert (Forall valid_date (sort compareFn l)) as Hv' by (by rewrite Hp).
  destruct (conforming_dated sort _ Hsort Hv') as (_ & Hs' & Hst').
  by apply stable_sort_unique.
Qed.

Lemma ecma_sort_undated sort l :
  ecma_sort sort → Forall (λ r, ¬ valid_date r) l →
  sort compareFn l = l.
Proof.
  rewrite Forall_forall. intros Hsort Hv.
  apply ecma_sort_all_tied; [done|].
  intros a b Ha Hb. apply compareFn_undated. left. by apply Hv.
Qed.

Lemma ecma_sort_nil sort : ecma_sort sort → sort compareFn [] = [].
Proof.
  intros Hsort. apply ecma_sort_all_tied; [done|].
  intros a b Ha. by apply elem_of_nil in Ha.
Qed.


Lemma sortFindDDOResults_eq sort (σ : store) resultList l :
  ecma_sort sort →
  σ !! resultList = Some l →
  sortFindDDOResults sort resultList σ
  = Some (resultList, <[resultList := sort compareFn l]> σ).
Proof.
  intros Hsort Hl. unfold sortFindDDOResults. rewrite Hl. simpl.
  destruct l as [|x l]; simpl; [|done].
  by rewrite ecma_sort_nil, insert_id.
Qed.

Lemma returned_array_sort sort (σ : store) resultList l :
  ecma_sort sort →
  σ !! resultList = Some l →
  returned_array (sortFindDDOResults sort resultList σ)
  = Some (sort compareFn l).
Proof.
  intros Hsort Hl. rewrite (sortFindDDOResults_eq _ _ _ _ Hsort Hl). simpl.
  apply lookup_insert_eq.
Qed.

(** The two records of [store_pair] change places, by insertion as on
    V8. *)
Example sortFindDDOResults_pair :
  returned_array (sortFindDDOResults Array_sort 1%positive store_pair)
  = Some [newer; older]
  ∧ returned_array (sortFindDDOResults v8_sort_short 1%positive store_pair)
    = Some [newer; older].
Proof. split; reflexivity. Qed.

Example sortFindDDOResults_empty :
  sortFindDDOResults v8_sort_short 2%positive
    (<[2%positive := []]> store_pair)
  = Some (2%positive, <[2%positive := []]> store_pair).
Proof. reflexivity. Qed.

(** V8 on the eight [candidates]: the first seven are a run already, and
    the binary search places the eighth before the fourth, so before the
    sixth that has its stamp. *)
Example v8_sort_short_candidates :
  v8_sort_short compareFn candidates
  = [at_time "peerA" 9; at_time "peerB" 8; at_time "peerC" 7; eighth;
     at_time "peerD" 1; at_time "peerE" 8640000000000001; sixth;
     at_time "peerG" 0].
Proof. reflexivity. Qed.







(** C3 fails as stated: among the eight [candidates] the sixth and the
    eighth have the same [lastUpdateTime], and V8 returns the eighth
    before the sixth.  The fifth has no date; it compares equal to all
    the others, which makes the comparator inconsistent, and the
    language then leaves the order to the engine. *)
Lemma sortFindDDOResults_ties_reordered :
  lastUpdateTime sixth = lastUpdateTime eighth
  ∧ stamped 5 candidates = [sixth; eighth]
  ∧ ∃ l',
      returned_array
        (sortFindDDOResults v8_sort_short 1%positive
           {[ 1%positive := candidates ]})
      = Some l'
      ∧ stamped 5 l' = [eighth; sixth].
Proof.
  split_and!; [reflexivity|reflexivity|].
  eexists. split; reflexivity.
Qed.

(** C3, amended.  When the [lastUpdateTime] of the candidates are all
    dates, or none is, records with the same [lastUpdateTime] come out
    in the order they went in.  Two candidates with equal stamps always
    do: the local one, listed first, is returned at index 0. *)
Theorem sortFindDDOResults_stable sort (σ : store) resultList l :
  ecma_sort sort →
  σ !! resultList = Some l →
  ∃ l',
    returned_array (sortFindDDOResults sort resultList σ) = Some l'
    ∧ (Forall valid_date l ∨ Forall (λ r, ¬ valid_date r) l →
       ∀ t, stamped t l' = stamped t l)
    ∧ (∀ local remote,
         l = [local; remote] →
         lastUpdateTime local = lastUpdateTime remote →
         l' !! 0%nat = Some local ∧ l' !! 1%nat = Some remote).
Proof.
  intros Hsort Hl. exists (sort compareFn l). split_and!.
  - by apply returned_array_sort.
  - intros [Hv|Hv] t.
    + by destruct (conforming_dated sort l Hsort Hv) as (_ & _ & ->).
    + by rewrite ecma_sort_undated.
  - intros local remote -> Heq.
    rewrite (ecma_sort_all_tied compareFn sort [local; remote]); [done|done|].
    intros a b Ha Hb. apply compareFn_same_time.
    repeat (apply elem_of_cons in Ha as [->|Ha]);
      repeat (apply elem_of_cons in Hb as [->|Hb]);
      (done || by apply elem_of_nil in Ha || by apply elem_of_nil in Hb).
Qed.

Lemma sortFindDDOResults_stable_witness :
  ∃ l',
    returned_array (sortFindDDOResults Array_sort 1%positive store_tie)
    = Some l'
    ∧ (Forall valid_date [older; twin]
       ∨ Forall (λ r, ¬ valid_date r) [older; twin] →
       ∀ t, stamped t l' = stamped t [older; twin])
    ∧ (∀ local remote,
         [older; twin] = [local; remote] →
         lastUpdateTime local = lastUpdateTime remote →
         l' !! 0%nat = Some local ∧ l' !! 1%nat = Some remote).
Proof.
  apply (sortFindDDOResults_stable Array_sort
           store_tie 1%positive [older; twin]).
  - apply Array_sort_conforms.
  - reflexivity.
Defined.

(** *** The cache *)
(** A cache refreshed at [t] that holds the identifier is fresh 60 s
    later and stale, though still holding it, 61 s later. *)
Example hasCachedDDO_ttl :
  let n := {| peerId := "16Uiu2HAm";
              ddoCache := {| updated := 100000;
                             dht := {[ "did:op:1" := older ]} |};
              database_ddo := ∅; clock := 100000; console := [];
              insertedAt := {[ "did:op:1" := 100000 ]} |} in
  let task := {| task_id := "did:op:1" |} in
  (hasCachedDDO 60000 task (elapse 60000 n)).1 = true
  ∧ (hasCachedDDO 60000 task (elapse 61000 n)).1 = false
  ∧ console (hasCachedDDO 60000 task (elapse 61000 n)).2
    = [CacheExpired "did:op:1" 61000]
  ∧ dht (ddoCache (hasCachedDDO 60000 task (elapse 61000 n)).2)
      !! "did:op:1" = Some older.
Proof. vm_compute. done. Qed.

(** On a tie the cached record stays: [twin] is as recent as the record
    built from [ddo1]. *)
Example findDDOLocally_tie :
  let n := {| peerId := "16Uiu2HAm";
              ddoCache := {| updated := 0;
                             dht := {[ "did:op:1" := twin ]} |};
              database_ddo := {[ "did:op:1" := ddo1 ]}; clock := 5;
              console := []; insertedAt := ∅ |} in
  provider <$> (findDDOLocally "did:op:1" n).1 = Some "16Uiu2HAm"
  ∧ dht (ddoCache (findDDOLocally "did:op:1" n).2) !! "did:op:1"
    = Some twin.
Proof. vm_compute. done. Qed.

(** C4 fails as stated.  With a TTL of 60 s, an entry that
    [findDDOLocally] put in the cache one millisecond ago is present and
    has age 1, yet [hasCachedDDO] answers [false]: the cache-wide stamp
    [updated] is 100 s old. *)
Lemma hasCachedDDO_ignores_entry_age :
  let n := elapse 1 (findDDOLocally "did:op:1" node0).2 in
  is_Some (dht (ddoCache n) !! "did:op:1")
  ∧ entry_age "did:op:1" n = Some 1
  ∧ 1 ≤ 60000
  ∧ (hasCachedDDO 60000 {| task_id := "did:op:1" |} n).1 = false.
Proof.
  simpl. split_and!.
  - eexists. vm_compute. reflexivity.
  - vm_compute. reflexivity.
  - lia.
  - vm_compute. reflexivity.
Qed.

(** C4, amended.  [hasCachedDDO] answers [true] exactly when the cache
    holds the identifier and the age of the cache as a whole, the clock
    minus its [updated] stamp, is at most [CACHE_TTL]; it changes
    nothing but the log, so a stale entry stays in the cache. *)
Theorem hasCachedDDO_spec CACHE_TTL task n :
  ((hasCachedDDO CACHE_TTL task n).1 = true
   ↔ is_Some (dht (ddoCache n) !! task_id task)
     ∧ clock n - updated (ddoCache n) ≤ CACHE_TTL)
  ∧ ddoCache (hasCachedDDO CACHE_TTL task n).2 = ddoCache n
  ∧ database_ddo (hasCachedDDO CACHE_TTL task n).2 = database_ddo n
  ∧ insertedAt (hasCachedDDO CACHE_TTL task n).2 = insertedAt n.
Proof.
  unfold hasCachedDDO, bind, dht_has, Date_getTime, cache_updated,
    P2P_CONSOLE_LOGGER_log, ret. simpl.
  case_bool_decide as Hhas; simpl.
  - destruct (Z.leb_spec (clock n - updated (ddoCache n)) CACHE_TTL); simpl.
    + split_and!; try done.
    + split_and!; try done. split; [done|]. intros [_ ?]; lia.
  - split_and!; try done. split; [done|]. intros [? _]; done.
Qed.

(** [findDDOLocally] in one piece: the record it builds, and the one
    write to the cache it makes when that record displaces the entry. *)
Lemma findDDOLocally_unfold did n :
  findDDOLocally did n
  = match database_ddo n !! did with
    | Some ddo =>
        (Some (built n ddo),
         if displaces n (built n ddo)
         then (dht_set (ddo_id ddo) (built n ddo) n).2
         else n)
    | None => (None, n)
    end.
Proof.
  unfold findDDOLocally, bind, ddo_retrieve, getPeerId, dht_has, dht_get,
    ret, displaces, built. simpl.
  destruct (database_ddo n !! did) as [ddo|]; [|done]. simpl.
  case_bool_decide as Hhas; simpl.
  - destruct Hhas as [c ->]. simpl. by destruct (Date_gt _ _).
  - apply eq_None_not_Some in Hhas. by rewrite Hhas.
Qed.



(** *** Further properties of the sort and the cache *)

Lemma hasCachedDDO_fst CACHE_TTL task n :
  (hasCachedDDO CACHE_TTL task n).1
  = bool_decide (is_Some (dht (ddoCache n) !! task_id task))
    && (clock n - updated (ddoCache n) <=? CACHE_TTL).
Proof.
  unfold hasCachedDDO, bind, dht_has, Date_getTime, cache_updated,
    P2P_CONSOLE_LOGGER_log, ret. simpl.
  case_bool_decide; simpl; [|done]. by destruct (_ <=? _).
Qed.




(** X1.  Sorting an array that [sortFindDDOResults] has already sorted
    changes nothing, when the [lastUpdateTime] of its records are all
    dates or none is: the second call returns the same array and leaves
    the store as the first call left it. *)
Theorem sortFindDDOResults_twice sort (σ : store) resultList l :
  ecma_sort sort →
  σ !! resultList = Some l →
  Forall valid_date l ∨ Forall (λ r, ¬ valid_date r) l →
  ∃ σ',
    sortFindDDOResults sort resultList σ = Some (resultList, σ')
    ∧ sortFindDDOResults sort resultList σ' = Some (resultList, σ').
Proof.
  intros Hsort Hl Hv. eexists. split; [by apply sortFindDDOResults_eq|].
  rewrite (sortFindDDOResults_eq sort _ _ (sort compareFn l) Hsort)
    by apply lookup_insert_eq.
  assert (sort compareFn (sort compareFn l) = sort compareFn l) as ->.
  { destruct Hv as [Hv|Hv]; [by apply ecma_sort_twice|].
    by rewrite !(ecma_sort_undated sort l). }
  by rewrite insert_insert_eq.
Qed.

Lemma sortFindDDOResults_twice_witness :
  ∃ σ',
    sortFindDDOResults Array_sort 1%positive store_pair
    = Some (1%positive, σ')
    ∧ sortFindDDOResults Array_sort 1%positive σ' = Some (1%positive, σ').
Proof.
  apply (sortFindDDOResults_twice Array_sort
           store_pair 1%positive [older; newer]).
  - apply Array_sort_conforms.
  - reflexivity.
  - left. repeat constructor; by eexists.
Defined.





(** X4.  Looking the same DDO up a second time, the database unchanged,
    returns the same record and changes nothing: the first look-up has
    already settled which record the cache keeps. *)
Theorem findDDOLocally_twice did n :
  findDDOLocally did (findDDOLocally did n).2
  = ((findDDOLocally did n).1, (findDDOLocally did n).2).
Proof.
  rewrite (findDDOLocally_unfold did n).
  destruct (database_ddo n !! did) as [ddo|] eqn:Hdb; simpl;
    [|by rewrite findDDOLocally_unfold, Hdb].
  set (info := built n ddo).
  destruct (displaces n info) eqn:Hd.
  - rewrite findDDOLocally_unfold. simpl. rewrite Hdb.
    fold info. unfold displaces. simpl.
    rewrite lookup_insert_eq. by rewrite Date_gt_irrefl.
  - rewrite findDDOLocally_unfold, Hdb. fold info. by rewrite Hd.
Qed.

(** X5.  A local look-up puts the DDO in the cache but never refreshes
    the age of the cache: afterwards [hasCachedDDO] answers [true] for an
    identifier exactly when the cache was within [CACHE_TTL] before the
    look-up and the identifier was cached already or is that of the DDO
    just found.  On a stale cache the answer stays [false]. *)
Theorem hasCachedDDO_after_findDDOLocally CACHE_TTL did task n :
  (hasCachedDDO CACHE_TTL task (findDDOLocally did n).2).1 = true
  ↔ clock n - updated (ddoCache n) ≤ CACHE_TTL
    ∧ (is_Some (dht (ddoCache n) !! task_id task)
       ∨ ∃ ddo, database_ddo n !! did = Some ddo
                ∧ task_id task = ddo_id ddo).
Proof.
  rewrite hasCachedDDO_fst, andb_true_iff, bool_decide_eq_true, Z.leb_le.
  rewrite (findDDOLocally_unfold did n).
  destruct (database_ddo n !! did) as [ddo|]; simpl.
  - destruct (displaces n (built n ddo)) eqn:Hd; simpl.
    + destruct (decide (ddo_id ddo = task_id task)) as [Heq|Hne].
      * rewrite Heq, lookup_insert_eq. split; [intros [_ ?]|intros [? _]].
        -- split; [done|]. right. by exists ddo.
        -- split; [eauto|done].
      * rewrite lookup_insert_ne by done.
        split; [intros [? ?]; eauto|].
        intros [? [?|(ddo' & [= <-] & ?)]]; [done|congruence].
    + split; [intros [? ?]; eauto|].
      intros [? [?|(ddo' & [= <-] & Heq)]]; [done|].
      split; [|done]. rewrite Heq.
      unfold displaces in Hd. simpl in Hd.
      destruct (dht (ddoCache n) !! ddo_id ddo); [eauto|done].
  - split; [intros [? ?]; eauto|].
    intros [? [?|(ddo' & [=] & _)]]; done.
Qed.
End FindDdoHandlerFacts.

Module BlockchainFacts.
Import Blockchain BlockchainSpec.

Section Walk.
Variable PRIVATE_KEY : option string.
Variable isPrivateKey : string → bool.

Lemma new_Wallet_usable p :
  usable PRIVATE_KEY isPrivateKey = true →
  ∃ k, new_Wallet PRIVATE_KEY isPrivateKey p
       = Returned {| wallet_key := k; wallet_rpc := url p |}.
Proof.
  unfold usable, new_Wallet. destruct PRIVATE_KEY as [k|]; [|done].
  intros ->. by exists k.
Qed.

Lemma new_Wallet_unusable p :
  usable PRIVATE_KEY isPrivateKey = false →
  ∃ m, new_Wallet PRIVATE_KEY isPrivateKey p = Thrown m.
Proof.
  unfold usable, new_Wallet. destruct PRIVATE_KEY as [k|]; [|by eexists].
  intros ->. destruct (isHexString _); by eexists.
Qed.

Lemma isNetworkReady_fst pr w w' :
  networkAvailable (this w) = networkAvailable (this w') →
  (isNetworkReady pr w).1 = (isNetworkReady pr w').1.
Proof.
  unfold isNetworkReady, detectNetwork. intros ->.
  destruct (_ || _); [done|]. by destruct (detected pr).
Qed.

Lemma existsb_seq_false (f : nat → bool) n :
  existsb f (seq 0 n) = false ↔ ∀ i, (i < n)%nat → f i = false.
Proof.
  induction n as [|n IH].
  - split; [intros _ i; lia|done].
  - rewrite seq_S, existsb_app, orb_false_iff, IH. simpl.
    rewrite orb_false_r. split.
    + intros [Hlt Hn] i Hi.
      destruct (decide (i = n)) as [->|Hne]; [done|]. apply Hlt. lia.
    + intros Hall. split; [intros i Hi; apply Hall; lia|apply Hall; lia].
Qed.

Lemma isNetworkReady_frame pr w :
  this (isNetworkReady pr w).2 = this w
  ∧ trace (isNetworkReady pr w).2 = trace w.
Proof.
  unfold isNetworkReady, detectNetwork.
  destruct (networkAvailable (this w) || ready pr); [done|].
  by destruct (detected pr).
Qed.

Lemma misses_cons rpc l :
  misses (rpc :: l) = attempt_events rpc false ++ misses l.
Proof. reflexivity. Qed.

Lemma misses_length l : length (misses l) = (6 * length l)%nat.
Proof.
  induction l as [|rpc l IH]; [done|].
  rewrite misses_cons, length_app, IH. simpl. lia.
Qed.

Lemma misses_unconfirmed rpc l : IsNetworkReady rpc true ∉ misses l.
Proof.
  induction l as [|u l IH]; [apply not_elem_of_nil|].
  rewrite misses_cons, elem_of_app. intros [Hin|Hin]; [|done].
  unfold attempt_events in Hin.
  repeat (apply elem_of_cons in Hin as [Hin|Hin]; [discriminate|]).
  by apply elem_of_nil in Hin.
Qed.

Lemma above_step j i u rpcs :
  (j < i)%nat → rpcs !! i = Some u →
  above j (S i) rpcs = u :: above j i rpcs.
Proof.
  intros Hji Hu. unfold above.
  rewrite (take_S_r _ _ _ Hu).
  assert (i < length rpcs)%nat by (by eapply lookup_lt_Some).
  rewrite drop_app_le by (rewrite length_take; lia).
  by rewrite reverse_snoc.
Qed.

Lemma above_self i rpcs : above i (S i) rpcs = [].
Proof.
  unfold above. rewrite drop_ge; [done|]. rewrite length_take. lia.
Qed.

(** What the loop entered with [i = k - 1] does when the key is usable. *)
Lemma tryFallbackRPCs_from_usable env k w :
  usable PRIVATE_KEY isPrivateKey = true →
  (k ≤ length (knownRPCs (this w)))%nat →
  let rpcs := knownRPCs (this w) in
  let res := tryFallbackRPCs_from PRIVATE_KEY isPrivateKey env k w in
  knownRPCs (this res.2) = rpcs
  ∧ ((res.1 = Returned true
      ∧ ∃ j rpc, (j < k)%nat ∧ rpcs !! j = Some rpc
          ∧ trace res.2
            = trace w ++ misses (above j k rpcs) ++ attempt_events rpc true
          ∧ url (provider (this res.2)) = rpc
          ∧ listeners (provider (this res.2)) = 1%nat
          ∧ wallet_rpc (signer (this res.2)) = rpc)
     ∨ (res.1 = Returned false
        ∧ trace res.2 = trace w ++ misses (reverse (take k rpcs)))).
Proof.
  intros Hkey. revert w.
  induction k as [|i IH]; intros w Hk; simpl.
  { split; [done|]. right. split; [done|].
    unfold log; simpl. by rewrite app_nil_r. }
  destruct (lookup_lt_is_Some_2 (knownRPCs (this w)) i) as [u Hu]; [lia|].
  rewrite Hu. simpl.
  match goal with
  | |- context [new_Wallet _ _ ?p] =>
      destruct (new_Wallet_usable p Hkey) as [key ->]
  end.
  unfold registerForNetworkEvents, sleep, networkChanged. simpl.
  match goal with
  | |- context [isNetworkReady ?pr ?w0] =>
      pose proof (isNetworkReady_frame pr w0) as [Hthis Htrace];
      destruct (isNetworkReady pr w0) as [ok w1] eqn:Hready
  end.
  simpl in Hthis, Htrace.
  assert (knownRPCs (this w1) = knownRPCs (this w)) as Hrpcs.
  { rewrite Hthis. by destruct (notification (env i)). }
  assert (trace w1 = trace w ++ [ProviderOff; ProviderNew u; WalletNew u;
                                 ProviderOn u; Sleep 2000]) as Htr.
  { rewrite Htrace. destruct (notification (env i)); simpl;
      by rewrite <- !app_assoc. }
  destruct ok; simpl.
  - split; [done|]. left. split; [done|].
    exists i, u. split_and!; try done.
    + lia.
    + rewrite above_self. simpl. rewrite Htr, <- app_assoc. done.
    + rewrite Hthis. by destruct (notification (env i)).
    + rewrite Hthis. by destruct (notification (env i)).
    + rewrite Hthis. by destruct (notification (env i)).
  - match goal with
    | |- context [tryFallbackRPCs_from _ _ _ _ ?w2] =>
        specialize (IH w2)
    end.
    simpl in IH. rewrite Hrpcs in IH.
    destruct IH as [IHr IHt]; [lia|].
    split; [done|].
    destruct IHt as
      [(Hres & j & rpc & Hj & Hrpc & Ht & Hp1 & Hp2 & Hp3)|(Hres & Ht)].
    + left. split; [done|]. exists j, rpc. split_and!; try done.
      * lia.
      * rewrite Ht, Htr, (above_step j i u) by done.
        rewrite misses_cons. unfold attempt_events at 3.
        rewrite <- !app_assoc. done.
    + right. split; [done|].
      rewrite Ht, Htr, (take_S_r _ _ _ Hu), reverse_snoc, misses_cons.
      unfold attempt_events. rewrite <- !app_assoc. done.
Qed.

(** With no usable key the first rebuild throws, after the old
    subscription was dropped and the new provider built. *)
Lemma tryFallbackRPCs_from_unusable env k w :
  usable PRIVATE_KEY isPrivateKey = false →
  let res := tryFallbackRPCs_from PRIVATE_KEY isPrivateKey env k w in
  match k with
  | O => res.1 = Returned false ∧ trace res.2 = trace w
  | S i => (∃ m, res.1 = Thrown m)
           ∧ ∃ u, trace res.2 = trace w ++ [ProviderOff; ProviderNew u]
  end.
Proof.
  intros Hkey. destruct k as [|i]; simpl; [done|].
  match goal with
  | |- context [new_Wallet _ _ ?p] =>
      destruct (new_Wallet_unusable p Hkey) as [m ->]
  end.
  simpl. split; [by eexists|]. eexists. by rewrite <- app_assoc.
Qed.

(** With a usable key the loop answers [true] exactly when one of the
    candidates below [k] is confirmed.  What [isNetworkReady()] answers
    depends on the instance through [networkAvailable] alone, which the
    loop leaves as it found it. *)
Lemma tryFallbackRPCs_from_answer env k w w0 :
  usable PRIVATE_KEY isPrivateKey = true →
  networkAvailable (this w0) = networkAvailable (this w) →
  (tryFallbackRPCs_from PRIVATE_KEY isPrivateKey env k w0).1
  = Returned (existsb (λ i, (isNetworkReady (env i) w).1) (seq 0 k)).
Proof.
  intros Hkey. revert w0.
  induction k as [|i IH]; intros w0 Hflag; [done|].
  rewrite seq_S, existsb_app. simpl. rewrite orb_false_r.
  match goal with
  | |- context [new_Wallet _ _ ?p] =>
      destruct (new_Wallet_usable p Hkey) as [key ->]
  end.
  unfold registerForNetworkEvents, sleep, networkChanged. simpl.
  match goal with
  | |- context [isNetworkReady ?pr ?w1] =>
      pose proof (isNetworkReady_frame pr w1) as [Hthis _];
      pose proof (isNetworkReady_fst pr w1 w) as Hans;
      destruct (isNetworkReady pr w1) as [ok w2]
  end.
  simpl in Hthis, Hans.
  rewrite <- Hans by (by destruct (notification (env i))).
  destruct ok; simpl; [by rewrite orb_true_r|].
  rewrite orb_false_r. apply IH. simpl. rewrite Hthis.
  by destruct (notification (env i)).
Qed.

End Walk.

(** The scenario of the specification: of [primary; f1; f2] only [f2]
    answers; it is tried first and the walk stops there. *)
Example tryFallbackRPCs_only_f2 :
  let res := tryFallbackRPCs pool_key any_key (only 2) pool_world in
  res.1 = Returned true
  ∧ trace res.2 = trace pool_world ++ attempt_events "https://f2" true
  ∧ url (provider (this res.2)) = "https://f2".
Proof. vm_compute. done. Qed.

(** When only the primary answers, it is reached last. *)
Example tryFallbackRPCs_only_primary :
  let res := tryFallbackRPCs pool_key any_key (only 0) pool_world in
  res.1 = Returned true
  ∧ trace res.2
    = trace pool_world ++ attempt_events "https://f2" false
      ++ attempt_events "https://f1" false
      ++ attempt_events "https://primary" true.
Proof. vm_compute. done. Qed.



(** C7.  [tryFallbackRPCs] returns [false] exactly when no endpoint of
    the pool is confirmed by [isNetworkReady()] (and the key is usable,
    or the pool empty); it has then tried every endpoint, each once,
    last index first.  With a usable key it always returns a boolean and
    throws nothing; and no call makes more than one attempt per
    endpoint. *)
Theorem tryFallbackRPCs_false_iff_exhausted PRIVATE_KEY isPrivateKey env w :
  let rpcs := knownRPCs (this w) in
  let res := tryFallbackRPCs PRIVATE_KEY isPrivateKey env w in
  (res.1 = Returned false
   ↔ (rpcs = [] ∨ usable PRIVATE_KEY isPrivateKey = true)
     ∧ ∀ i, (i < length rpcs)%nat → (isNetworkReady (env i) w).1 = false)
  ∧ (res.1 = Returned false
     ↔ trace res.2 = trace w ++ misses (reverse rpcs))
  ∧ (usable PRIVATE_KEY isPrivateKey = true → ∃ b, res.1 = Returned b)
  ∧ (length (trace res.2) ≤ length (trace w) + 6 * length rpcs)%nat.
Proof.
  simpl. unfold tryFallbackRPCs.
  destruct (usable PRIVATE_KEY isPrivateKey) eqn:Hkey.
  - pose proof (tryFallbackRPCs_from_answer PRIVATE_KEY isPrivateKey env
                  (length (knownRPCs (this w))) w w Hkey eq_refl) as Hans.
    pose proof (tryFallbackRPCs_from_usable PRIVATE_KEY isPrivateKey env
                  (length (knownRPCs (this w))) w Hkey (le_n _)) as [_ H].
    simpl in H. rewrite firstn_all in H.
    split.
    { rewrite Hans. split.
      - intros [= Hex]. split; [by right|]. by apply existsb_seq_false.
      - intros [_ Hall]. f_equal. by apply existsb_seq_false. }
    clear Hans.
    destruct H as [(Hres & j & rpc & Hj & Hrpc & Ht & _)|(Hres & Ht)].
    + rewrite Hres, Ht. split_and!.
      * split; [done|]. intros Heq%app_inv_head.
        exfalso. apply (misses_unconfirmed rpc (reverse (knownRPCs (this w)))).
        rewrite <- Heq, elem_of_app. right.
        unfold attempt_events. rewrite !elem_of_cons. tauto.
      * eauto.
      * rewrite !length_app, misses_length. unfold above.
        rewrite length_reverse, length_drop, firstn_all. simpl. lia.
    + rewrite Hres, Ht. split_and!; [done|eauto|].
      rewrite length_app, misses_length, length_reverse. lia.
  - pose proof (tryFallbackRPCs_from_unusable PRIVATE_KEY isPrivateKey env
                  (length (knownRPCs (this w))) w Hkey) as H.
    cbv zeta in H.
    destruct (length (knownRPCs (this w))) as [|i] eqn:Hlen.
    + destruct H as [H1 H2]. rewrite H1, H2.
      apply nil_length_inv in Hlen. rewrite Hlen.
      split_and!; [|by rewrite app_nil_r|done|lia].
      split; [|done]. intros _. split; [by left|]. intros i Hi. lia.
    + destruct H as ((m & H1) & u & H2). rewrite H1, H2.
      split_and!; [| |done|].
      * split; [done|]. intros [[Hnil|?] _]; [|done].
        rewrite Hnil in Hlen. done.
      * split; [done|]. intros Heq%app_inv_head.
        apply (f_equal length) in Heq.
        rewrite misses_length, length_reverse in Heq. simpl in Heq. lia.
      * rewrite length_app. simpl. lia.
Qed.

(** *** [verifyMessage] *)

Example verifyMessage_accepts_other_case :
  verifyMessage toy_isAddress toy_recover (Text "hello")
    "0xabcdef0123456789abcdef0123456789abcdef01" "0x1b"
  = Returned true.
Proof. reflexivity. Qed.

Example verifyMessage_rejects_bad_signature :
  verifyMessage toy_isAddress toy_recover (Text "hello")
    "0xabcdef0123456789abcdef0123456789abcdef01" ""
  = Returned false.
Proof. reflexivity. Qed.

(** C8.  [verifyMessage] never throws.  It returns [true] exactly when
    the address is a valid one, the signature recovers to a signer, and
    the signer's address equals the given one once both are lower-cased;
    it returns [false] when the address is not valid, when recovery
    throws, and when the recovered address differs. *)
Theorem verifyMessage_spec isAddress ethers_verifyMessage
    message address signature :
  let res := verifyMessage isAddress ethers_verifyMessage
               message address signature in
  (∃ b, res = Returned b)
  ∧ (res = Returned true
     ↔ isAddress address = true
       ∧ ∃ signerAddr,
           ethers_verifyMessage message signature = Returned signerAddr
           ∧ toLowerCase signerAddr = toLowerCase address)
  ∧ (isAddress address = false → res = Returned false)
  ∧ ((∃ m, ethers_verifyMessage message signature = Thrown m) →
     res = Returned false)
  ∧ (∀ signerAddr,
       ethers_verifyMessage message signature = Returned signerAddr →
       toLowerCase signerAddr ≠ toLowerCase address →
       res = Returned false).
Proof.
  cbv zeta. unfold verifyMessage, verifyMessage_body.
  destruct (isAddress address); simpl.
  - destruct (ethers_verifyMessage message signature) as [s|m]; simpl.
    + destruct (String.eqb_spec (toLowerCase s) (toLowerCase address))
        as [Heq|Hne]; simpl; split_and!.
      * by eexists.
      * split; [intros _; split; [done|by exists s]|done].
      * intros [=].
      * intros [m [=]].
      * intros s' [= <-] Hne. done.
      * by eexists.
      * split; [intros [=]|]. intros (_ & s' & [= <-] & Heq). done.
      * intros [=].
      * intros [m [=]].
      * done.
    + split_and!.
      * by eexists.
      * split; [intros [=]|]. intros (_ & s' & [=] & _).
      * intros [=].
      * done.
      * intros s' [=].
  - split_and!.
    + by eexists.
    + split; [intros [=]|]. intros [[=] _].
    + done.
    + done.
    + done.
Qed.
(** *** Further properties of the instance *)

Section WalkMore.
Variable PRIVATE_KEY : option string.
Variable isPrivateKey : string → bool.

(** The loop never touches the pool, the chain id or the network. *)
Lemma tryFallbackRPCs_from_frame env k w :
  let res := tryFallbackRPCs_from PRIVATE_KEY isPrivateKey env k w in
  knownRPCs (this res.2) = knownRPCs (this w)
  ∧ chainId (this res.2) = chainId (this w)
  ∧ network (this res.2) = network (this w).
Proof.
  revert w. induction k as [|i IH]; intros w; simpl; [done|].
  destruct (new_Wallet _ _ _) as [s|m]; simpl; [|done].
  unfold registerForNetworkEvents, sleep, networkChanged. simpl.
  match goal with
  | |- context [isNetworkReady ?pr ?w0] =>
      pose proof (isNetworkReady_frame pr w0) as [Hthis _];
      destruct (isNetworkReady pr w0) as [ok w1]
  end.
  simpl in Hthis.
  assert (knownRPCs (this w1) = knownRPCs (this w)
          ∧ chainId (this w1) = chainId (this w)
          ∧ network (this w1) = network (this w)) as (H1 & H2 & H3).
  { rewrite Hthis. by destruct (notification (env i)). }
  destruct ok; simpl; [done|].
  match goal with
  | |- context [tryFallbackRPCs_from _ _ _ _ ?w2] =>
      destruct (IH w2) as (IH1 & IH2 & IH3)
  end.
  simpl in *. by rewrite IH1, IH2, IH3.
Qed.

(** Nor does it touch [networkAvailable]. *)
Lemma tryFallbackRPCs_from_flag env k w :
  networkAvailable
    (this (tryFallbackRPCs_from PRIVATE_KEY isPrivateKey env k w).2)
  = networkAvailable (this w).
Proof.
  revert w. induction k as [|i IH]; intros w; simpl; [done|].
  destruct (new_Wallet _ _ _) as [s|m]; simpl; [|done].
  unfold registerForNetworkEvents, sleep, networkChanged. simpl.
  match goal with
  | |- context [isNetworkReady ?pr ?w0] =>
      pose proof (isNetworkReady_frame pr w0) as [Hthis _];
      destruct (isNetworkReady pr w0) as [ok w1]
  end.
  simpl in Hthis.
  assert (networkAvailable (this w1) = networkAvailable (this w)) as H1.
  { rewrite Hthis. by destruct (notification (env i)). }
  destruct ok; simpl; [done|].
  match goal with
  | |- context [tryFallbackRPCs_from _ _ _ _ ?w2] => rewrite (IH w2)
  end.
  done.
Qed.

Lemma isNetworkReady_false pr w :
  (isNetworkReady pr w).1 = false → networkAvailable (this w) = false.
Proof.
  unfold isNetworkReady.
  destruct (networkAvailable (this w)); simpl; [done|done].
Qed.

(** After a pass that confirmed nothing, the instance is left on the
    candidate of index 0. *)
Lemma tryFallbackRPCs_from_exhausted env k w key rpc0 :
  PRIVATE_KEY = Some key →
  isPrivateKey key = true →
  knownRPCs (this w) !! 0%nat = Some rpc0 →
  (0 < k ≤ length (knownRPCs (this w)))%nat →
  let res := tryFallbackRPCs_from PRIVATE_KEY isPrivateKey env k w in
  res.1 = Returned false →
  provider (this res.2)
  = {| url := rpc0; staticNetwork := None; listeners := 1 |}
  ∧ signer (this res.2) = {| wallet_key := key; wallet_rpc := rpc0 |}
  ∧ networkAvailable (this res.2) = false.
Proof.
  intros HK Hkey.
  assert (∀ p, new_Wallet PRIVATE_KEY isPrivateKey p
               = Returned {| wallet_key := key; wallet_rpc := url p |})
    as Hwallet.
  { intros p. unfold new_Wallet. by rewrite HK, Hkey. }
  revert w.
  induction k as [|i IH]; intros w H0 Hk; [lia|]. simpl.
  destruct (lookup_lt_is_Some_2 (knownRPCs (this w)) i) as [u Hu]; [lia|].
  rewrite Hu, Hwallet. simpl.
  unfold registerForNetworkEvents, sleep, networkChanged. simpl.
  match goal with
  | |- context [isNetworkReady ?pr ?w0] =>
      pose proof (isNetworkReady_frame pr w0) as [Hthis _];
      pose proof (isNetworkReady_false pr w0) as Hna;
      destruct (isNetworkReady pr w0) as [ok w1]
  end.
  simpl in Hthis, Hna. destruct ok; simpl; [done|].
  specialize (Hna eq_refl). rewrite <- Hthis in Hna.
  assert (knownRPCs (this w1) = knownRPCs (this w)
          ∧ provider (this w1)
            = {| url := u; staticNetwork := None; listeners := 1 |}
          ∧ signer (this w1) = {| wallet_key := key; wallet_rpc := u |})
    as (Hrpcs & Hprov & Hsig).
  { rewrite Hthis. by destruct (notification (env i)). }
  destruct (decide (i = 0%nat)) as [->|Hi].
  - simpl. intros _. rewrite H0 in Hu. injection Hu as <-. done.
  - apply IH; simpl; rewrite Hrpcs; [done|lia].
Qed.
End WalkMore.

(** X6.  An instance that [new Blockchain(...)] returns serves the
    primary endpoint: the pool is the primary followed by the fallbacks
    given, if any; the provider is bound to the primary and to the
    network named at construction and carries one subscription; the
    signer is bound to the same endpoint; the chain id is the one given;
    and the network is not yet marked available. *)
Theorem constructor_spec PRIVATE_KEY isPrivateKey
    primary chainName chain fallbackRPCs w :
  constructor PRIVATE_KEY isPrivateKey primary chainName chain fallbackRPCs
  = Returned w →
  getKnownRPCs w = primary :: default [] fallbackRPCs
  ∧ getSupportedChain w = chain
  ∧ getProvider w
    = {| url := primary;
         staticNetwork := Some (mkNetwork chainName chain);
         listeners := 1 |}
  ∧ wallet_rpc (getSigner w) = primary
  ∧ network (this w) = mkNetwork chainName chain
  ∧ networkAvailable (this w) = false.
Proof.
  unfold constructor.
  destruct (new_Wallet _ _ _) as [s|m] eqn:Hs; [|done].
  intros [= <-]. unfold new_Wallet in Hs.
  destruct PRIVATE_KEY as [key|]; [|done].
  destruct (isPrivateKey key); [|by destruct (isHexString _)].
  injection Hs as <-.
  split_and!; try done.
  unfold getKnownRPCs. simpl.
  destruct fallbackRPCs as [[|f fs]|]; done.
Qed.

Lemma constructor_spec_witness :
  getKnownRPCs pool_world
  = "https://primary" :: default [] (Some ["https://f1"; "https://f2"])
  ∧ getSupportedChain pool_world = 11155111
  ∧ getProvider pool_world
    = {| url := "https://primary";
         staticNetwork := Some (mkNetwork "sepolia" 11155111);
         listeners := 1 |}
  ∧ wallet_rpc (getSigner pool_world) = "https://primary"
  ∧ network (this pool_world) = mkNetwork "sepolia" 11155111
  ∧ networkAvailable (this pool_world) = false.
Proof.
  apply (constructor_spec pool_key any_key "https://primary" "sepolia"
           11155111 (Some ["https://f1"; "https://f2"]) pool_world).
  reflexivity.
Defined.

(** X7.  [isNetworkReady()] never throws and changes neither the
    instance nor what it has done to its provider.  It answers [true]
    without probing when the network is marked available or the provider
    says it is ready; otherwise the answer is that of the probe, a probe
    that throws counting as [false]. *)
Theorem isNetworkReady_spec pr w :
  (isNetworkReady pr w).1
  = networkAvailable (this w) || ready pr
    || match detected pr with Returned b => b | Thrown _ => false end
  ∧ this (isNetworkReady pr w).2 = this w
  ∧ trace (isNetworkReady pr w).2 = trace w
  ∧ (networkAvailable (this w) || ready pr = true →
     (isNetworkReady pr w).2 = w).
Proof.
  unfold isNetworkReady, detectNetwork.
  destruct (networkAvailable (this w) || ready pr); simpl; [done|].
  destruct (detected pr); done.
Qed.

(** X8.  No call of [tryFallbackRPCs], whatever the key and whatever the
    network does, changes the pool of endpoints, the chain id or the
    network the instance was built for. *)
Theorem tryFallbackRPCs_frame PRIVATE_KEY isPrivateKey env w :
  let res := tryFallbackRPCs PRIVATE_KEY isPrivateKey env w in
  getKnownRPCs res.2 = getKnownRPCs w
  ∧ getSupportedChain res.2 = getSupportedChain w
  ∧ network (this res.2) = network (this w).
Proof. apply tryFallbackRPCs_from_frame. Qed.

(** X9.  When [tryFallbackRPCs] returns [false], the instance is left on
    the primary endpoint, the last one it tried: provider and signer are
    bound to it, the provider carries one subscription and, unlike the
    one the constructor built, no network, and the network is not marked
    available. *)
Theorem tryFallbackRPCs_exhausted_on_primary
    PRIVATE_KEY isPrivateKey env w key primary fallbacks :
  PRIVATE_KEY = Some key →
  isPrivateKey key = true →
  getKnownRPCs w = primary :: fallbacks →
  let res := tryFallbackRPCs PRIVATE_KEY isPrivateKey env w in
  res.1 = Returned false →
  getProvider res.2
  = {| url := primary; staticNetwork := None; listeners := 1 |}
  ∧ getSigner res.2 = {| wallet_key := key; wallet_rpc := primary |}
  ∧ networkAvailable (this res.2) = false.
Proof.
  unfold getKnownRPCs. intros HK Hkey Hrpcs.
  apply tryFallbackRPCs_from_exhausted; try done.
  - by rewrite Hrpcs.
  - rewrite Hrpcs. simpl. lia.
Qed.

Lemma tryFallbackRPCs_exhausted_on_primary_witness :
  let res := tryFallbackRPCs pool_key any_key (λ _, unreachable) pool_world in
  getProvider res.2
  = {| url := "https://primary"; staticNetwork := None; listeners := 1 |}
  ∧ getSigner res.2
    = {| wallet_key := sample_key; wallet_rpc := "https://primary" |}
  ∧ networkAvailable (this res.2) = false.
Proof.
  apply (tryFallbackRPCs_exhausted_on_primary pool_key any_key
           (λ _, unreachable) pool_world sample_key "https://primary"
           ["https://f1"; "https://f2"]).
  - reflexivity.
  - reflexivity.
  - reflexivity.
  - reflexivity.
Defined.

(** X10.  If the key has become unusable, [tryFallbackRPCs] on a
    non-empty pool throws at the first candidate, after it has dropped
    the old subscription and replaced the provider: the instance is left
    with a provider for the last endpoint of the pool that carries no
    subscription, and with the signer it had, bound to the old
    provider. *)
Theorem tryFallbackRPCs_unusable_key
    PRIVATE_KEY isPrivateKey env w rpcs last_rpc :
  usable PRIVATE_KEY isPrivateKey = false →
  getKnownRPCs w = rpcs ++ [last_rpc] →
  let res := tryFallbackRPCs PRIVATE_KEY isPrivateKey env w in
  (∃ m, res.1 = Thrown m)
  ∧ getProvider res.2
    = {| url := last_rpc; staticNetwork := None; listeners := 0 |}
  ∧ getSigner res.2 = getSigner w
  ∧ trace res.2 = trace w ++ [ProviderOff; ProviderNew last_rpc].
Proof.
  unfold getKnownRPCs, tryFallbackRPCs. intros Hkey Hrpcs.
  rewrite Hrpcs, length_app, Nat.add_1_r. simpl.
  match goal with
  | |- context [new_Wallet _ _ ?p] =>
      destruct (new_Wallet_unusable PRIVATE_KEY isPrivateKey p Hkey)
        as [m ->]
  end.
  rewrite Hrpcs, lookup_app_r, Nat.sub_diag by done. simpl.
  split; [by eexists|]. by rewrite <- app_assoc.
Qed.

Lemma tryFallbackRPCs_unusable_key_witness :
  let res := tryFallbackRPCs None any_key (λ _, reachable) pool_world in
  (∃ m, res.1 = Thrown m)
  ∧ getProvider res.2
    = {| url := "https://f2"; staticNetwork := None; listeners := 0 |}
  ∧ getSigner res.2 = getSigner pool_world
  ∧ trace res.2 = trace pool_world ++ [ProviderOff; ProviderNew "https://f2"].
Proof.
  apply (tryFallbackRPCs_unusable_key None any_key (λ _, reachable)
           pool_world ["https://primary"; "https://f1"] "https://f2").
  - reflexivity.
  - reflexivity.
Defined.

(** X11.  The network is never marked available.  [networkChanged] is
    subscribed without being bound to the instance, so whatever
    ['network'] events arrive, an instance that the constructor built
    still has [networkAvailable] false after any number of calls of
    [tryFallbackRPCs], and [isNetworkReady()] answers by what the
    provider says or by the probe alone. *)
Theorem networkAvailable_never_set PRIVATE_KEY isPrivateKey
    primary chainName chain fallbackRPCs w0 envs :
  constructor PRIVATE_KEY isPrivateKey primary chainName chain fallbackRPCs
  = Returned w0 →
  let w := foldl (λ w env, (tryFallbackRPCs PRIVATE_KEY isPrivateKey env w).2)
                 w0 envs in
  networkAvailable (this w) = false
  ∧ ∀ pr, (isNetworkReady pr w).1
          = ready pr
            || match detected pr with Returned b => b | Thrown _ => false end.
Proof.
  intros Hw0. cbv zeta.
  assert (networkAvailable (this w0) = false) as H0.
  { unfold constructor in Hw0.
    destruct (new_Wallet _ _ _); [|done]. by injection Hw0 as <-. }
  clear Hw0.
  assert (networkAvailable
            (this (foldl (λ w env,
                     (tryFallbackRPCs PRIVATE_KEY isPrivateKey env w).2)
                   w0 envs)) = false) as Hflag.
  { revert w0 H0. induction envs as [|env envs IH]; intros w0 H0; [done|].
    simpl. apply IH.
    unfold tryFallbackRPCs.
    by rewrite (tryFallbackRPCs_from_flag PRIVATE_KEY isPrivateKey). }
  split; [done|]. intros pr.
  unfold isNetworkReady, detectNetwork. rewrite Hflag. simpl.
  destruct (ready pr); [done|]. by destruct (detected pr).
Qed.

Lemma networkAvailable_never_set_witness :
  let w := foldl (λ w env, (tryFallbackRPCs pool_key any_key env w).2)
                 pool_world [λ _, announced; only 1] in
  networkAvailable (this w) = false
  ∧ ∀ pr, (isNetworkReady pr w).1
          = ready pr
            || match detected pr with Returned b => b | Thrown _ => false end.
Proof.
  apply (networkAvailable_never_set pool_key any_key "https://primary"
           "sepolia" 11155111 (Some ["https://f1"; "https://f2"])
           pool_world [λ _, announced; only 1]).
  reflexivity.
Defined.

(** *** Supported chains *)

Example getJsonRpcProvider_mainnet :
  getJsonRpcProvider pretty mainnet_only 1
  = Some {| url := "https://mainnet"; staticNetwork := None; listeners := 0 |}
  ∧ getJsonRpcProvider pretty mainnet_only 137 = None.
Proof. split; reflexivity. Qed.

(** X12.  Entering a chain in [supportedNetworks] under its decimal
    chain id makes [getJsonRpcProvider] return, for that chain, a fresh
    provider for the [rpc] given, with no network and no subscription,
    and changes the answer for no other chain: the keys of two chain ids
    never collide.  The chain ids are integers that a number holds
    exactly, which [toString] prints digit by digit. *)
Theorem getJsonRpcProvider_spec Number_toString config chain net other :
  (∀ n, Z.abs n < 2 ^ 53 → Number_toString n = pretty n) →
  Z.abs chain < 2 ^ 53 →
  Z.abs other < 2 ^ 53 →
  let config' :=
    {| supportedNetworks :=
         <[pretty chain := net]> (supportedNetworks config) |} in
  getJsonRpcProvider Number_toString config' chain
  = Some {| url := rpc net; staticNetwork := None; listeners := 0 |}
  ∧ (other ≠ chain →
     getJsonRpcProvider Number_toString config' other
     = getJsonRpcProvider Number_toString config other).
Proof.
  intros Hstr Hchain Hother. cbv zeta.
  unfold getJsonRpcProvider, checkSupportedChainId. simpl.
  rewrite (Hstr chain Hchain), (Hstr other Hother).
  rewrite lookup_insert_eq. simpl.
  split; [done|]. intros Hne.
  rewrite lookup_insert_ne; [done|].
  intros Heq. by apply (inj pretty) in Heq.
Qed.

Lemma getJsonRpcProvider_spec_witness :
  let config' :=
    {| supportedNetworks :=
         <[pretty 137 := {| rpc := "https://polygon" |}]>
           (supportedNetworks mainnet_only) |} in
  getJsonRpcProvider pretty config' 137
  = Some {| url := rpc {| rpc := "https://polygon" |};
            staticNetwork := None; listeners := 0 |}
  ∧ (1 ≠ 137 →
     getJsonRpcProvider pretty config' 1
     = getJsonRpcProvider pretty mainnet_only 1).
Proof.
  apply (getJsonRpcProvider_spec pretty mainnet_only 137
           {| rpc := "https://polygon" |} 1).
  - reflexivity.
  - reflexivity.
  - reflexivity.
Defined.
End BlockchainFacts.

Module StorageFacts.
Import Storage StorageSpec.

(** Whether a line terminator starts a string is told by its first
    three bytes; a slash is none of them. *)
Lemma lineTerminatorAt_prefix c a b :
  lineTerminatorAt (String c (a +:+ String slash b))
  = lineTerminatorAt (String c a).
Proof.
  unfold lineTerminatorAt.
  destruct a as [|d [|e a]]; simpl; [by destruct b| |done].
  by rewrite andb_false_r.
Qed.

(** The matcher accepts the strings the expression describes: a
    non-empty prefix without line terminators, a slash, and a non-empty
    last segment free of slashes. *)
Lemma regex_from_spec started s :
  regex_from started s = true
  ↔ ∃ a b, s = a +:+ String slash b
           ∧ (started = true ∨ a ≠ "")
           ∧ noLineTerminator a = true
           ∧ lastSegment b = true.
Proof.
  revert started. induction s as [|c s IH]; intros started.
  - split; [done|]. intros ([|? ?] & b & [=] & _).
  - cbn [regex_from].
    rewrite orb_true_iff, !andb_true_iff, negb_true_iff, IH.
    split.
    + intros [[[-> Hc] Hb]|[Hc (a & b & -> & _ & Ha & Hb)]].
      * apply Ascii.eqb_eq in Hc as ->.
        exists "", s. simpl. auto.
      * exists (String c a), b. cbn [noLineTerminator].
        rewrite lineTerminatorAt_prefix in Hc. rewrite Hc. simpl.
        split_and!; auto.
    + intros ([|c' a] & b & Heq & Hst & Ha & Hb).
      * injection Heq as -> ->. left.
        destruct Hst as [->|?]; [|done].
        by rewrite Ascii.eqb_refl.
      * injection Heq as -> ->. right.
        cbn [noLineTerminator] in Ha.
        apply andb_true_iff in Ha as [Hc Ha].
        apply negb_true_iff in Hc.
        rewrite lineTerminatorAt_prefix.
        split; [done|]. exists a, b. auto.
Qed.

Lemma regex_test_spec s :
  regex_test s = true
  ↔ ∃ a b, s = a +:+ String slash b
           ∧ a ≠ ""
           ∧ noLineTerminator a = true
           ∧ lastSegment b = true.
Proof.
  unfold regex_test. rewrite regex_from_spec.
  split; intros (a & b & ? & ? & ?); exists a, b; intuition congruence.
Qed.

Lemma truthy_Some v :
  truthy v = true ↔ ∃ s, v = Some s ∧ s ≠ "".
Proof.
  destruct v as [s|]; simpl.
  - rewrite negb_true_iff. destruct (String.eqb_spec s ""); split.
    + done.
    + intros (? & [= <-] & ?). done.
    + intros _. by exists s.
    + done.
  - split; [done|]. intros (? & [=] & _).
Qed.

Example getStorageClass_http :
  getStorageClass gateways file_http = Returned (UrlStorage file_http).
Proof. reflexivity. Qed.

(** A line separator stops [.]: the url [a<U+2028>b/c] is not taken for
    a file path. *)
Example getStorageClass_separator :
  let file := {| type := Some "url"; url := Some url_with_separator;
                 method := Some "get"; hash := None;
                 transactionId := None |} in
  getStorageClass gateways file = Returned (UrlStorage file).
Proof. reflexivity. Qed.

Example getStorageClass_path :
  getStorageClass gateways file_path
  = Thrown "Error validationg the URL file: URL looks like a file path".
Proof. reflexivity. Qed.

(** The [null] branch of [getDownloadUrl()] is there for objects that do
    not validate, which the constructor never returns. *)
Example getDownloadUrl_null_branch :
  UrlStorage_getDownloadUrl (UrlStorage file_without_url) = Null
  ∧ new_UrlStorage file_without_url
    = Thrown "Error validationg the URL file: URL or method are missing".
Proof. split; reflexivity. Qed.

(** C9 fails as stated: a file tagged ['url'] that has no [url] gets no
    [UrlStorage]; the constructor throws. *)
Lemma getStorageClass_url_throws :
  type file_without_url = Some "url"
  ∧ getStorageClass gateways file_without_url
    = Thrown "Error validationg the URL file: URL or method are missing"
  ∧ ∀ s, getStorageClass gateways file_without_url ≠ Returned s.
Proof. split_and!; [reflexivity|reflexivity|]. intros s. discriminate. Qed.

(** C9, amended.  [getStorageClass] returns a storage object exactly when
    [file.type] is one of ['url'], ['ipfs'], ['arweave'] and the file
    passes the [validate()] of the class with that tag; the object is
    then the instance of that class holding the file, so it matches the
    tag.  When the file does not pass, the constructor's error is thrown,
    and for every other type value the call throws
    [Invalid storage type]. *)
Theorem getStorageClass_spec env file :
  (∀ s, getStorageClass env file = Returned s
        ↔ type file = Some (tagOf s) ∧ getFile s = file
          ∧ (validate env s).1 = true)
  ∧ (∀ s, type file = Some (tagOf s) → getFile s = file →
          (validate env s).1 = false →
          ∃ m, getStorageClass env file = Thrown m)
  ∧ (type file ≠ Some "url" → type file ≠ Some "ipfs" →
     type file ≠ Some "arweave" →
     getStorageClass env file
     = Thrown ("Invalid storage type: " +:+ default "undefined" (type file))).
Proof.
  unfold getStorageClass, new_UrlStorage, new_IpfsStorage, new_ArweaveStorage.
  simpl.
  split_and!.
  - intros s. repeat case_bool_decide.
    + destruct (UrlStorage_validate file) as [[] msg] eqn:Hv; simpl.
      * split.
        -- intros [= <-]. simpl. by rewrite Hv.
        -- intros (Ht & Hf & Hs). destruct s; simpl in *; subst; congruence.
      * split; [done|].
        intros (Ht & Hf & Hs). destruct s; simpl in *; subst;
          [rewrite Hv in Hs; done|congruence..].
    + destruct (IpfsStorage_validate env file) as [[] msg] eqn:Hv; simpl.
      * split.
        -- intros [= <-]. simpl. by rewrite Hv.
        -- intros (Ht & Hf & Hs). destruct s; simpl in *; subst; congruence.
      * split; [done|].
        intros (Ht & Hf & Hs). destruct s; simpl in *; subst;
          [congruence|rewrite Hv in Hs; done|congruence].
    + destruct (ArweaveStorage_validate env file) as [[] msg] eqn:Hv; simpl.
      * split.
        -- intros [= <-]. simpl. by rewrite Hv.
        -- intros (Ht & Hf & Hs). destruct s; simpl in *; subst; congruence.
      * split; [done|].
        intros (Ht & Hf & Hs). destruct s; simpl in *; subst;
          [congruence..|rewrite Hv in Hs; done].
    + split; [done|]. intros (Ht & _). destruct s; simpl in *; congruence.
  - intros s Ht Hf Hs. destruct s; simpl in *; subst; rewrite Ht; simpl.
    + destruct (UrlStorage_validate _) as [[] msg]; simpl in *; eauto; done.
    + destruct (IpfsStorage_validate _ _) as [[] msg]; simpl in *; eauto; done.
    + destruct (ArweaveStorage_validate _ _) as [[] msg]; simpl in *; eauto;
        done.
  - intros H1 H2 H3. by rewrite !bool_decide_eq_false_2.
Qed.

(** C10.  A [UrlStorage] that the constructor returned passes
    [validate()]: its file has a non-empty [url], a [method] that is
    [get] or [post] up to case, and a [url] that is not a file path.
    Hence [getDownloadUrl()] on it returns the [url] of the file and
    never [null]. *)
Theorem UrlStorage_constructed_valid file s :
  new_UrlStorage file = Returned s →
  s = UrlStorage file
  ∧ (∀ env, validate env s = (true, ""))
  ∧ (∃ u m, url file = Some u ∧ u ≠ ""
            ∧ method file = Some m
            ∧ (toLowerCase m = "get" ∨ toLowerCase m = "post")
            ∧ isFilePath file = false
            ∧ UrlStorage_getDownloadUrl s = NotNull (Some u))
  ∧ UrlStorage_getDownloadUrl s ≠ Null.
Proof.
  unfold new_UrlStorage, UrlStorage_getDownloadUrl. simpl.
  destruct (UrlStorage_validate file) as [[] msg] eqn:Hv; simpl; [|done].
  intros [= <-]. simpl. rewrite Hv. simpl.
  unfold UrlStorage_validate, includes in Hv.
  destruct (truthy (url file)) eqn:Hu; simpl in Hv; [|done].
  destruct (truthy (method file)) eqn:Hm; simpl in Hv; [|done].
  apply truthy_Some in Hu as (u & Hu & Hu').
  apply truthy_Some in Hm as (m & Hm & Hm').
  rewrite Hm in Hv. simpl in Hv. rewrite orb_false_r in Hv.
  destruct (String.eqb_spec (toLowerCase m) "get") as [Hget|_];
    [|destruct (String.eqb_spec (toLowerCase m) "post") as [Hpost|_]];
    simpl in Hv; [| |done];
    (destruct (isFilePath file) eqn:Hp; [done|]);
    injection Hv as <-;
    (split_and!; try done);
    exists u, m; rewrite Hu; split_and!; auto.
Qed.

Lemma UrlStorage_constructed_valid_witness :
  UrlStorage file_http = UrlStorage file_http
  ∧ (∀ env, validate env (UrlStorage file_http) = (true, ""))
  ∧ (∃ u m, url file_http = Some u ∧ u ≠ ""
            ∧ method file_http = Some m
            ∧ (toLowerCase m = "get" ∨ toLowerCase m = "post")
            ∧ isFilePath file_http = false
            ∧ UrlStorage_getDownloadUrl (UrlStorage file_http)
              = NotNull (Some u))
  ∧ UrlStorage_getDownloadUrl (UrlStorage file_http) ≠ Null.
Proof.
  apply (UrlStorage_constructed_valid file_http (UrlStorage file_http)).
  reflexivity.
Defined.
(** *** Further properties of the storage classes *)

Lemma pretty_N_go_nonempty x s : s ≠ "" → pretty_N_go x s ≠ "".
Proof.
  revert s. induction (N.lt_wf_0 x) as [x _ IH]; intros s Hs.
  assert (x = 0 ∨ 0 < x)%N as [->|Hx] by lia.
  - by rewrite pretty_N_go_0.
  - rewrite pretty_N_go_step by done. apply IH; [|done].
    by apply N.div_lt.
Qed.

Lemma pretty_N_nonempty (x : N) : pretty x ≠ "".
Proof.
  unfold pretty, pretty_N. case_decide; [done|].
  rewrite pretty_N_go_step by lia. by apply pretty_N_go_nonempty.
Qed.

Lemma startsWith_nonempty s p : p ≠ "" → startsWith s p = true → s ≠ "".
Proof.
  unfold startsWith. intros Hp Hs ->. by destruct p.
Qed.


Section Network.
Variable env : ProcessEnv.
Variable axios_head axios_get : option string → completion Headers.
Variable axios_get_stream : option string → completion (list N).
Variable urlJoin : option string → option string → completion string.
Variable URL_pathname : option string → completion string.
Variable getFileEndpoint :
  option string → option string → completion (option (list FileObject)).

Local Abbreviation fetch_meta :=
  (fetchFileMetadata axios_head axios_get axios_get_stream).
Local Abbreviation fetch_info :=
  (fetchSpecificFileMetadata env axios_head axios_get axios_get_stream
     urlJoin URL_pathname).
Local Abbreviation file_info :=
  (getFileInfo env axios_head axios_get axios_get_stream
     urlJoin URL_pathname getFileEndpoint).
Local Abbreviation info_loop :=
  (getFileInfo_loop env axios_head axios_get axios_get_stream
     urlJoin URL_pathname).

Lemma fetch_info_tagged this fileObject r :
  fetch_info this fileObject = Returned r →
  valid r = true ∧ info_type r = tagOf this.
Proof.
  destruct this; simpl;
    unfold UrlStorage_fetchSpecificFileMetadata,
      IpfsStorage_fetchSpecificFileMetadata,
      ArweaveStorage_fetchSpecificFileMetadata;
    (destruct fileObject as [f|]; [|done]).
  - destruct (fetchFileMetadata _ _ _ _), (URL_pathname _); [|done].
    by intros [= <-].
  - destruct (urlJoin (Some "/ipfs") _); [|done].
    destruct (urlJoin _ _); [|done].
    destruct (fetchFileMetadata _ _ _ _). by intros [= <-].
  - destruct (urlJoin _ _); [|done].
    destruct (fetchFileMetadata _ _ _ _), (URL_pathname _); [|done].
    by intros [= <-].
Qed.


(** The loop reports the files up to the first one whose fetch throws. *)
Lemma info_loop_prefix this files response :
  ∃ infos,
    info_loop this files response = response ++ infos
    ∧ (length infos ≤ length files)%nat
    ∧ (∀ j r, infos !! j = Some r →
         ∃ f, files !! j = Some f ∧ fetch_info this (Some f) = Returned r)
    ∧ (length infos = length files
       ∨ ∃ f m, files !! length infos = Some f
                ∧ fetch_info this (Some f) = Thrown m).
Proof.
  revert response. induction files as [|f files IH]; intros response; simpl.
  - exists []. rewrite app_nil_r. split_and!; auto. intros j r [=].
  - destruct (fetch_info this (Some f)) as [r|m] eqn:Hf.
    + destruct (IH (response ++ [r])) as (infos & -> & Hlen & Hall & Hend).
      exists (r :: infos). rewrite <- app_assoc. split_and!.
      * done.
      * simpl. lia.
      * intros [|j] r'; simpl.
        -- intros [= <-]. eauto.
        -- apply Hall.
      * destruct Hend as [Heq|(f' & m & Hf' & Hm)]; simpl.
        -- left. by rewrite Heq.
        -- right. eauto.
    + exists []. rewrite app_nil_r. split_and!.
      * done.
      * simpl. lia.
      * intros j r [=].
      * right. exists f, m. done.
Qed.

(** X13.  [fetchFileMetadata] throws nothing and never leaves the length
    empty.  A length header the [HEAD] request returns is passed on as it
    is; without one, from [HEAD] or from the [GET] that replaces a failed
    [HEAD], the length is the size of the streamed body in decimal, and
    ['Unknown'] when that download fails as well. *)
Theorem fetchFileMetadata_contentLength u :
  (∃ s, (fetch_meta u).1 = Some s ∧ s ≠ "")
  ∧ (∀ h, axios_head u = Returned h →
          truthy (content_length h) = true →
          fetch_meta u = (content_length h, content_type h))
  ∧ (∀ chunks, axios_get_stream u = Returned chunks →
          (∀ h, axios_head u = Returned h →
                truthy (content_length h) = false) →
          (∀ m h, axios_head u = Thrown m → axios_get u = Returned h →
                  truthy (content_length h) = false) →
          (fetch_meta u).1 = Some (pretty (foldl N.add 0%N chunks)))
  ∧ (∀ m1 m2 m3, axios_head u = Thrown m1 → axios_get u = Thrown m2 →
          axios_get_stream u = Thrown m3 →
          fetch_meta u = (Some "Unknown", Some "")).
Proof.
  unfold fetchFileMetadata. split_and!.
  - destruct (axios_head u) as [h|]; [|destruct (axios_get u) as [h|]];
      try (destruct (truthy (content_length h)) eqn:Ht; simpl;
           [by apply truthy_Some in Ht|]);
      simpl; destruct (axios_get_stream u); simpl; eexists;
      (split; [done|]); (apply pretty_N_nonempty || done).
  - intros h -> Ht. by rewrite Ht.
  - intros chunks -> Hhead Hget.
    destruct (axios_head u) as [h|m]; [|destruct (axios_get u) as [h|]].
    + by rewrite (Hhead h).
    + by rewrite (Hget m h).
    + done.
  - by intros m1 m2 m3 -> -> ->.
Qed.

(** X14.  [getFileInfo] throws only on a request it cannot serve: one
    with no [type] that lacks the [did] or the [serviceId].  Every other
    request gets a list back, whatever fails while the files are looked
    up or fetched. *)
Theorem getFileInfo_throws this request :
  (∃ m, file_info this request = Thrown m)
  ↔ truthy (request_type request) = false
    ∧ (truthy (did request) = false ∨ truthy (serviceId request) = false).
Proof.
  unfold getFileInfo.
  destruct (truthy (request_type request)); simpl.
  - split; [|intros [[=] _]]. intros [m Hm]. exfalso.
    destruct (fileIndex request) as [i|]; [destruct (i =? 0)|];
      simpl in Hm; try done.
    by destruct (fetch_info this _).
  - destruct (truthy (did request)); simpl; [|by split; eauto].
    destruct (truthy (serviceId request)); simpl; [|by split; eauto].
    split; [|by intros [_ [[=]|[=]]]]. intros [m Hm]. exfalso.
    destruct (getFileEndpoint _ _) as [[[|f files]|]|]; try done.
    destruct (fileIndex request) as [i|]; [destruct (i =? 0)|];
      simpl in Hm; try done.
    by destruct (fetch_info this _).
Qed.


(** X16.  Every entry [getFileInfo] returns is marked valid and carries
    the type tag of the class of the storage object that fetched it,
    whatever the [type] of the file it describes. *)
Theorem getFileInfo_tagged this request infos r :
  file_info this request = Returned infos →
  r ∈ infos →
  valid r = true ∧ info_type r = tagOf this.
Proof.
  unfold getFileInfo.
  destruct (_ && _); [done|]. destruct (_ && _); [done|].
  assert (∀ files, r ∈ info_loop this files [] →
                   valid r = true ∧ info_type r = tagOf this) as Hloop.
  { intros files Hr.
    destruct (info_loop_prefix this files []) as (l & Heq & _ & Hall & _).
    rewrite Heq in Hr. simpl in Hr.
    apply list_elem_of_lookup in Hr as [j Hj].
    destruct (Hall j r Hj) as (f & _ & Hf).
    by eapply fetch_info_tagged. }
  assert (∀ fo l, match fetch_info this fo with
                  | Returned fileInfo => Returned ([] ++ [fileInfo])
                  | Thrown _ => Returned []
                  end = Returned l →
                  r ∈ l → valid r = true ∧ info_type r = tagOf this)
    as Hone.
  { intros fo l. destruct (fetch_info this fo) as [r'|] eqn:Hf.
    - intros [= <-] ->%list_elem_of_singleton. by eapply fetch_info_tagged.
    - intros [= <-] []%elem_of_nil. }
  destruct (if truthy (request_type request) then _ else _)
    as [[[|f files]|]|]; try (by intros [= <-] []%elem_of_nil).
  destruct (fileIndex request) as [i|]; [destruct (i =? 0)|]; cbn [negb].
  - intros [= <-]. apply (Hloop (f :: files)).
  - apply Hone.
  - intros [= <-]. apply (Hloop (f :: files)).
Qed.

(** X17.  A request by [did] and [serviceId] with no file index, or
    with index 0, which being falsy selects nothing, is answered file by
    file, in order, until a fetch throws: the entries returned are those
    of the files before the first failure, and nothing is reported for
    that file or for those after it. *)
Theorem getFileInfo_until_failure this request files :
  truthy (request_type request) = false →
  truthy (did request) = true →
  truthy (serviceId request) = true →
  fileIndex request = None ∨ fileIndex request = Some 0 →
  getFileEndpoint (did request) (serviceId request)
  = Returned (Some files) →
  ∃ infos,
    file_info this request = Returned infos
    ∧ (∀ j r, infos !! j = Some r →
         ∃ f, files !! j = Some f ∧ fetch_info this (Some f) = Returned r)
    ∧ (length infos = length files
       ∨ ∃ f m, files !! length infos = Some f
                ∧ fetch_info this (Some f) = Thrown m).
Proof.
  intros Ht Hd Hs Hi Hfiles. unfold getFileInfo.
  rewrite Ht, Hd, Hs, Hfiles. cbn [negb andb].
  destruct (info_loop_prefix this files []) as (infos & Heq & _ & Hall & Hend).
  exists infos. rewrite app_nil_l in Heq.
  destruct files as [|f files].
  - simpl in Heq. subst infos. split_and!; [done|intros j r [=]|by left].
  - destruct Hi as [-> | ->]; cbn [negb Z.eqb]; by rewrite Heq.
Qed.
End Network.


Lemma getFileInfo_tagged_witness :
  valid info_http = true ∧ info_type info_http = tagOf (UrlStorage file_http).
Proof.
  apply (getFileInfo_tagged gateways sample_head sample_get sample_stream
           sample_urlJoin sample_pathname sample_endpoint
           (UrlStorage file_http) request_by_did [info_http] info_http).
  - reflexivity.
  - apply list_elem_of_here.
Defined.

Lemma getFileInfo_until_failure_witness :
  ∃ infos,
    getFileInfo gateways sample_head sample_get sample_stream
      sample_urlJoin sample_pathname sample_endpoint
      (UrlStorage file_http) request_by_did
    = Returned infos
    ∧ (∀ j r, infos !! j = Some r →
         ∃ f, [file_http; file_path] !! j = Some f
              ∧ fetchSpecificFileMetadata gateways sample_head sample_get
                  sample_stream sample_urlJoin sample_pathname
                  (UrlStorage file_http) (Some f)
                = Returned r)
    ∧ (length infos = length [file_http; file_path]
       ∨ ∃ f m, [file_http; file_path] !! length infos = Some f
                ∧ fetchSpecificFileMetadata gateways sample_head sample_get
                    sample_stream sample_urlJoin sample_pathname
                    (UrlStorage file_http) (Some f)
                  = Thrown m).
Proof.
  apply (getFileInfo_until_failure gateways sample_head sample_get
           sample_stream sample_urlJoin sample_pathname sample_endpoint
           (UrlStorage file_http) request_by_did [file_http; file_path]).
  - reflexivity.
  - reflexivity.
  - reflexivity.
  - left. reflexivity.
  - reflexivity.
Defined.

(** The listing stops at the file whose url cannot be parsed. *)
Example getFileInfo_by_did :
  getFileInfo gateways sample_head sample_get sample_stream
    sample_urlJoin sample_pathname sample_endpoint
    (UrlStorage file_http) request_by_did
  = Returned [info_http].
Proof. reflexivity. Qed.

(** X18.  [new IpfsStorage(file)] returns exactly when the process has
    an [IPFS_GATEWAY] and the file a [hash], both non-empty; the missing
    gateway is reported before the missing hash. *)
Theorem new_IpfsStorage_spec env file :
  (new_IpfsStorage env file = Returned (IpfsStorage file)
   ↔ truthy (IPFS_GATEWAY env) = true ∧ truthy (hash file) = true)
  ∧ (truthy (IPFS_GATEWAY env) = false →
     new_IpfsStorage env file
     = Thrown "Error validationg the IPFS file: IPFS gateway is not provided!")
  ∧ (truthy (IPFS_GATEWAY env) = true → truthy (hash file) = false →
     new_IpfsStorage env file
     = Thrown "Error validationg the IPFS file: Missing CID")
  ∧ (∀ s, new_IpfsStorage env file = Returned s → s = IpfsStorage file).
Proof.
  unfold new_IpfsStorage, IpfsStorage_validate. simpl.
  destruct (truthy (IPFS_GATEWAY env)), (truthy (hash file)); simpl;
    split_and!; try done; try (by intros s [= <-]);
    split; try done; by intros [? ?].
Qed.

(** X19.  [new ArweaveStorage(file)] returns exactly when the process
    has an [ARWEAVE_GATEWAY] and the file a [transactionId], both
    non-empty; the missing gateway is reported before the missing id. *)
Theorem new_ArweaveStorage_spec env file :
  (new_ArweaveStorage env file = Returned (ArweaveStorage file)
   ↔ truthy (ARWEAVE_GATEWAY env) = true
     ∧ truthy (transactionId file) = true)
  ∧ (truthy (ARWEAVE_GATEWAY env) = false →
     new_ArweaveStorage env file
     = Thrown
         "Error validationg the Arweave file: Arweave gateway is not provided!")
  ∧ (truthy (ARWEAVE_GATEWAY env) = true →
     truthy (transactionId file) = false →
     new_ArweaveStorage env file
     = Thrown "Error validationg the Arweave file: Missing transaction ID")
  ∧ (∀ s, new_ArweaveStorage env file = Returned s →
          s = ArweaveStorage file).
Proof.
  unfold new_ArweaveStorage, ArweaveStorage_validate. simpl.
  destruct (truthy (ARWEAVE_GATEWAY env)), (truthy (transactionId file));
    simpl; split_and!; try done; try (by intros s [= <-]);
    split; try done; by intros [? ?].
Qed.

(** X20.  A url that starts with [http://] or [https://] is never taken
    for a file path: with a method that is [get] or [post] up to case,
    the constructor accepts the file whatever follows the scheme. *)
Theorem new_UrlStorage_http file u m :
  url file = Some u →
  method file = Some m →
  startsWith u "http://" = true ∨ startsWith u "https://" = true →
  toLowerCase m = "get" ∨ toLowerCase m = "post" →
  new_UrlStorage file = Returned (UrlStorage file).
Proof.
  intros Hu Hm Hhttp Hget.
  assert (u ≠ "") as Hu'.
  { destruct Hhttp as [H|H]; by apply startsWith_nonempty in H. }
  assert (m ≠ "") as Hm'.
  { intros ->. by destruct Hget. }
  unfold new_UrlStorage, UrlStorage_validate, isFilePath, includes. simpl.
  rewrite Hu, Hm. simpl.
  rewrite (proj2 (String.eqb_neq u "") Hu').
  rewrite (proj2 (String.eqb_neq m "") Hm'). simpl.
  assert ((toLowerCase m =? "get")%string
          || ((toLowerCase m =? "post")%string || false) = true) as ->.
  { destruct Hget as [->| ->]; done. }
  simpl.
  assert (startsWith u "http://" || startsWith u "https://" = true) as ->.
  { destruct Hhttp as [->| ->]; [done|apply orb_true_r]. }
  done.
Qed.

Lemma new_UrlStorage_http_witness :
  new_UrlStorage file_http = Returned (UrlStorage file_http).
Proof.
  apply (new_UrlStorage_http file_http "https://example.com/data.csv" "GET").
  - reflexivity.
  - reflexivity.
  - right. reflexivity.
  - left. reflexivity.
Defined.

(** X21.  A url without [http://] or [https://] in front is refused as a
    file path exactly when it has the shape [a/b], where [a] is not
    empty and holds no line break and [b] is not empty and holds no
    slash; any other url, given a method that is [get] or [post] up to
    case, is accepted. *)
Theorem new_UrlStorage_path file u m :
  url file = Some u →
  method file = Some m →
  startsWith u "http://" = false →
  startsWith u "https://" = false →
  toLowerCase m = "get" ∨ toLowerCase m = "post" →
  (new_UrlStorage file
   = Thrown "Error validationg the URL file: URL looks like a file path"
   ↔ ∃ a b, u = a +:+ String slash b ∧ a ≠ ""
            ∧ noLineTerminator a = true ∧ lastSegment b = true)
  ∧ (u ≠ "" →
     new_UrlStorage file = Returned (UrlStorage file)
     ∨ new_UrlStorage file
       = Thrown "Error validationg the URL file: URL looks like a file path").
Proof.
  intros Hu Hm Hh1 Hh2 Hget.
  assert (m ≠ "") as Hm'.
  { intros ->. by destruct Hget. }
  rewrite <- regex_test_spec.
  unfold new_UrlStorage, UrlStorage_validate, isFilePath, includes. simpl.
  rewrite Hu, Hm. simpl.
  rewrite (proj2 (String.eqb_neq m "") Hm'), Hh1, Hh2. simpl.
  assert ((toLowerCase m =? "get")%string
          || ((toLowerCase m =? "post")%string || false) = true) as Hm''.
  { destruct Hget as [->| ->]; done. }
  destruct (String.eqb_spec u "") as [->|Hne]; simpl.
  - split; [by split|done].
  - rewrite Hm''. simpl.
    destruct (regex_test u); simpl; split; try done; auto.
Qed.

Lemma new_UrlStorage_path_witness :
  (new_UrlStorage file_path
   = Thrown "Error validationg the URL file: URL looks like a file path"
   ↔ ∃ a b, "../etc/passwd" = a +:+ String slash b ∧ a ≠ ""
            ∧ noLineTerminator a = true ∧ lastSegment b = true)
  ∧ ("../etc/passwd" ≠ "" →
     new_UrlStorage file_path = Returned (UrlStorage file_path)
     ∨ new_UrlStorage file_path
       = Thrown "Error validationg the URL file: URL looks like a file path").
Proof.
  apply (new_UrlStorage_path file_path "../etc/passwd" "get").
  - reflexivity.
  - reflexivity.
  - reflexivity.
  - reflexivity.
  - left. reflexivity.
Defined.
End StorageFacts.
